(** * Crossword CSP engine (lec3_crossword/generate.py): a shallow embedding

    The development follows [CrosswordCreator] method by method.  Python
    values are modelled as follows.

    - A [Variable] (slot) is a record compared and hashed by value.
    - [self.domains] is a dict from variables to *sets* of words.  The dict
      is a [gmap]; each set is a duplicate-free list whose order is the
      order in which CPython's set iterator yields the elements.
    - Exceptions are explicit: every method is a function from the domain
      store to an [outcome] (a returned value or a raised exception)
      together with the store as the method left it.
    - Iterating over a set follows CPython's iterator protocol: each call
      of [next] first compares the size of the set with the size recorded
      when the iterator was created and raises [RuntimeError] ("Set changed
      size during iteration") when they differ.
    - The [while] loop of [ac3] is driven by an iteration budget. *)

From stdpp Require Import gmap strings list fin_maps.
From Stdlib Require Import String Ascii.

Local Open Scope string_scope.

(** ** Puzzle model (interface of crossword.py) *)

Inductive Direction := ACROSS | DOWN.

Record variable := mkVariable {
  var_i : nat;
  var_j : nat;
  var_direction : Direction;
  var_length : nat
}.

#[global] Instance Direction_eq_dec : EqDecision Direction.
Proof. solve_decision. Defined.

#[global] Instance variable_eq_dec : EqDecision variable.
Proof. solve_decision. Defined.

Definition variable_to_tuple (v : variable) : nat * nat * bool * nat :=
  (var_i v, var_j v,
   match var_direction v with ACROSS => true | DOWN => false end,
   var_length v).

Definition variable_of_tuple (t : nat * nat * bool * nat) : variable :=
  let '(a, b, d, n) := t in
  mkVariable a b (if d then ACROSS else DOWN) n.

#[global] Instance variable_countable : Countable variable.
Proof.
  apply (inj_countable' variable_to_tuple variable_of_tuple).
  intros [a b [] n]; reflexivity.
Defined.

(** An arc is an ordered pair of variables, as stored in the worklist. *)
Abbreviation arc := (variable * variable)%type.

(** The part of [Crossword] that generate.py reads.  crossword.py is not
    part of the sources, so its members are taken as they are used:
    [variables] and the result of [neighbors] are sets that are only
    iterated (their iteration order is the list order), [overlaps] is a dict
    keyed by ordered pairs whose values are [None] or a pair of indices. *)
Record Crossword := mkCrossword {
  variables : list variable;
  words : list string;
  overlaps : gmap arc (option (nat * nat));
  neighbors : variable -> list variable
}.

(** ** Outcomes, exceptions and the domain store *)

Inductive exn :=
| KeyError
| IndexError
| TypeError
| RuntimeError
| NotImplementedError.

Inductive outcome (A : Type) :=
| Ret (a : A)
| Raise (e : exn).
Arguments Ret {A} a.
Arguments Raise {A} e.

Abbreviation domains := (gmap variable (list string)).

Definition M (A : Type) : Type := domains -> outcome A * domains.

Definition ret {A} (a : A) : M A := fun st => (Ret a, st).

Definition raise {A} (e : exn) : M A := fun st => (Raise e, st).

Definition bind {A B} (m : M A) (k : A -> M B) : M B :=
  fun st =>
    match m st with
    | (Ret a, st') => k a st'
    | (Raise e, st') => (Raise e, st')
    end.

Notation "x <- m ;; k" := (bind m (fun x => k))
  (at level 100, m at next level, right associativity).

(** [CrosswordCreator.__init__]: every variable gets its own copy of the
    vocabulary. *)
Definition init_domains (cw : Crossword) : domains :=
  list_to_map (map (fun var => (var, words cw)) (variables cw)).

(** [self.domains[x].remove(w)]: [KeyError] when [x] is not a key of the
    dict, and (from [set.remove]) when [w] is not in the set. *)
Definition set_remove (x : variable) (w : string) : M unit :=
  fun st =>
    match st !! x with
    | None => (Raise KeyError, st)
    | Some d =>
        if decide (w ∈ d)
        then (Ret tt, <[x := filter (fun v => v ≠ w) d]> st)
        else (Raise KeyError, st)
    end.

(** ** Iterating over a domain *)

(** What the body of a [for] loop asks for next. *)
Inductive flow (A : Type) :=
| Continue (a : A)
| Break (a : A).
Arguments Continue {A} a.
Arguments Break {A} a.

(** The iterator over the set object [self.domains[x]].  [used] is the size
    of the set when the iterator was created, [pending] the elements not
    yet yielded.  Every [next] starts with the size check.  The dict never
    loses a key, so the first branch is not reachable from [for_in_domain]. *)
Fixpoint set_iter {A} (x : variable) (used : nat) (pending : list string)
    (body : string -> A -> M (flow A)) (acc : A) : M A :=
  fun st =>
    match st !! x with
    | None => (Raise KeyError, st)
    | Some cur =>
        if decide (List.length cur = used) then
          match pending with
          | [] => (Ret acc, st)
          | w :: rest =>
              match body w acc st with
              | (Ret (Continue a), st') => set_iter x used rest body a st'
              | (Ret (Break a), st') => (Ret a, st')
              | (Raise e, st') => (Raise e, st')
              end
          end
        else (Raise RuntimeError, st)
    end.

(** [for w in self.domains[x]: body], with [acc] the local variables the
    loop updates. *)
Definition for_in_domain {A} (x : variable)
    (body : string -> A -> M (flow A)) (acc : A) : M A :=
  fun st =>
    match st !! x with
    | None => (Raise KeyError, st)
    | Some d => set_iter x (List.length d) d body acc st
    end.

(** ** enforce_node_consistency *)

Definition node_body (var : variable) (value : string) (_ : unit)
    : M (flow unit) :=
  if decide (String.length value ≠ var_length var)
  then (_ <- set_remove var value ;; ret (Continue tt))
  else ret (Continue tt).

Fixpoint node_loop (vars : list variable) : M unit :=
  match vars with
  | [] => ret tt
  | var :: rest =>
      _ <- for_in_domain var (node_body var) tt ;; node_loop rest
  end.

Definition enforce_node_consistency (cw : Crossword) : M unit :=
  node_loop (variables cw).

(** ** revise *)

(** [w[i]] for a non-negative index. *)
Definition index (w : string) (i : nat) : M ascii :=
  match String.get i w with
  | Some c => ret c
  | None => raise IndexError
  end.

Definition revise_inner (xval : string) (i j : nat) (yval : string)
    (satisfied : bool) : M (flow bool) :=
  a <- index xval i ;;
  b <- index yval j ;;
  if decide (a = b) then ret (Break true) else ret (Continue satisfied).

Definition revise_body (x y : variable) (i j : nat) (xval : string)
    (revised : bool) : M (flow bool) :=
  satisfied <- for_in_domain y (revise_inner xval i j) false ;;
  if satisfied then ret (Continue revised)
  else (_ <- set_remove x xval ;; ret (Continue true)).

Definition revise (cw : Crossword) (x y : variable) : M bool :=
  match overlaps cw !! (x, y) with
  | None => raise KeyError
  | Some None => ret false
  | Some (Some (i, j)) => for_in_domain x (revise_body x y i j) false
  end.

(** ** ac3 *)

(** [(a or b)] on two tuples: a non-empty tuple is truthy, so the value is
    the left operand. *)
Definition tuple_or (a b : arc) : arc := a.

(** The inner loop of the worklist construction, for one variable. *)
Fixpoint initial_arcs_inner (var : variable) (nbrs : list variable)
    (arcs : list arc) : list arc :=
  match nbrs with
  | [] => arcs
  | neigbor_var :: rest =>
      if decide (tuple_or (neigbor_var, var) (var, neigbor_var) ∈ arcs)
      then initial_arcs_inner var rest arcs
      else initial_arcs_inner var rest (arcs ++ [(neigbor_var, var)])
  end.

Fixpoint initial_arcs_outer (cw : Crossword) (vars : list variable)
    (arcs : list arc) : list arc :=
  match vars with
  | [] => arcs
  | var :: rest =>
      initial_arcs_outer cw rest (initial_arcs_inner var (neighbors cw var) arcs)
  end.

Definition initial_arcs (cw : Crossword) : list arc :=
  initial_arcs_outer cw (variables cw) [].

(** [for z in neighbors(x): if z != y: arcs.append((z, x))] *)
Fixpoint enqueue (x y : variable) (nbrs : list variable) (arcs : list arc)
    : list arc :=
  match nbrs with
  | [] => arcs
  | z :: rest =>
      if decide (z ≠ y) then enqueue x y rest (arcs ++ [(z, x)])
      else enqueue x y rest arcs
  end.

(** The [while] loop.  The worklist is a mutable list object; its content
    when the loop stops is part of the result.  [None] means that the
    budget of iterations was used up before the loop stopped. *)
Fixpoint ac3_while (cw : Crossword) (fuel : nat) (arcs : list arc)
    (st : domains) : option (outcome bool * list arc * domains) :=
  match arcs with
  | [] => Some (Ret true, [], st)
  | (x, y) :: arcs' =>
      match fuel with
      | 0 => None
      | S fuel' =>
          match revise cw x y st with
          | (Raise e, st') => Some (Raise e, arcs', st')
          | (Ret false, st') => ac3_while cw fuel' arcs' st'
          | (Ret true, st') =>
              match st' !! x with
              | None => Some (Raise KeyError, arcs', st')
              | Some dx =>
                  if decide (List.length dx = 0)
                  then Some (Ret false, arcs', st')
                  else ac3_while cw fuel'
                         (enqueue x y (neighbors cw x) arcs') st'
              end
          end
      end
  end.

(** The list the loop works on.  [None] stands for the default argument,
    [Some l] for a list supplied by the caller: [[] == None] is false, so
    an empty list is used as it is. *)
Definition worklist (cw : Crossword) (arcs : option (list arc)) : list arc :=
  match arcs with
  | None => initial_arcs cw
  | Some l => l
  end.

(** [ac3(arcs)].  The second component of the result is the content of the
    worklist when the method stops; for a supplied list this is the
    caller's own list object. *)
Definition ac3 (cw : Crossword) (fuel : nat) (arcs : option (list arc))
    (st : domains) : option (outcome bool * list arc * domains) :=
  ac3_while cw fuel (worklist cw arcs) st.

(** ** assignment_complete and consistent *)

(** An assignment is a dict from variables to words; a dict iterates in
    insertion order, so it is kept as a list of items.  A value of [None]
    stands for Python's [None]. *)
Abbreviation assignment := (list (variable * option string)).

(** [assignment[var]], [None] when [var] is not a key. *)
Fixpoint assignment_get (a : assignment) (var : variable)
    : option (option string) :=
  match a with
  | [] => None
  | (k, val) :: rest =>
      if decide (k = var) then Some val else assignment_get rest var
  end.

Fixpoint assignment_complete_loop (vals : list (option string)) : bool :=
  match vals with
  | [] => true
  | None :: _ => false
  | Some _ :: rest => assignment_complete_loop rest
  end.

(** The method does not read [self.crossword]. *)
Definition assignment_complete (cw : Crossword) (a : assignment) : bool :=
  assignment_complete_loop (map snd a).

(** How a loop body inside a function ends: fall through to the next
    iteration, or [return r] from the function. *)
Inductive ctl (R : Type) :=
| Next
| Return (r : R).
Arguments Next {R}.
Arguments Return {R} r.

(** The loop over the neighbors of [var] in [consistent]. *)
Fixpoint consistent_inner (cw : Crossword) (a : assignment) (var : variable)
    (val : string) (nbrs : list variable) : outcome (ctl bool) :=
  match nbrs with
  | [] => Ret Next
  | neighbor_var :: rest =>
      match assignment_get a neighbor_var with
      | None => consistent_inner cw a var val rest
      | Some nval =>
          match overlaps cw !! (var, neighbor_var) with
          | None => Raise KeyError
          | Some None => Raise TypeError
          | Some (Some (i, j)) =>
              match String.get i val with
              | None => Raise IndexError
              | Some c =>
                  match nval with
                  | None => Raise TypeError
                  | Some nword =>
                      match String.get j nword with
                      | None => Raise IndexError
                      | Some c' =>
                          if decide (c ≠ c') then Ret (Return false)
                          else consistent_inner cw a var val rest
                      end
                  end
              end
          end
      end
  end.

(** [values.append[val]]: subscripting the bound method [values.append]
    raises [TypeError]; nothing is appended. *)
Definition append_subscript (values : list (option string))
    (val : option string) : outcome (list (option string)) :=
  Raise TypeError.

(** The loop over [assignment.items()].  The function ends without a
    [return] after the loop, which yields [None]. *)
Fixpoint consistent_loop (cw : Crossword) (a : assignment)
    (items : assignment) (values : list (option string))
    : outcome (option bool) :=
  match items with
  | [] => Ret None
  | (var, val) :: rest =>
      if decide (val ∈ values) then Ret (Some false)
      else
        match val with
        | None => Raise TypeError
        | Some word =>
            if decide (String.length word ≠ var_length var)
            then Ret (Some false)
            else
              match consistent_inner cw a var word (neighbors cw var) with
              | Raise e => Raise e
              | Ret (Return b) => Ret (Some b)
              | Ret Next =>
                  match append_subscript values val with
                  | Raise e => Raise e
                  | Ret values' => consistent_loop cw a rest values'
                  end
              end
        end
  end.

Definition consistent (cw : Crossword) (a : assignment)
    : outcome (option bool) :=
  consistent_loop cw a a [].

(** ** The search stubs and solve *)

Definition order_domain_values (cw : Crossword) (var : variable)
    (a : assignment) : M (list string) :=
  raise NotImplementedError.

Definition select_unassigned_variable (cw : Crossword) (a : assignment)
    : M variable :=
  raise NotImplementedError.

Definition backtrack (cw : Crossword) (a : assignment)
    : M (option assignment) :=
  raise NotImplementedError.

(** [solve]: the result of [ac3] is discarded. *)
Definition solve (cw : Crossword) (fuel : nat) (st : domains)
    : option (outcome (option assignment) * domains) :=
  match enforce_node_consistency cw st with
  | (Raise e, st1) => Some (Raise e, st1)
  | (Ret _, st1) =>
      match ac3 cw fuel None st1 with
      | None => None
      | Some (Raise e, _, st2) => Some (Raise e, st2)
      | Some (Ret _, _, st2) => Some (backtrack cw [] st2)
      end
  end.

(** ** The properties the specification asks for *)

(** No word is added to any domain, and no domain appears or disappears. *)
Definition shrinks (st st' : domains) : Prop :=
  ∀ x, match st' !! x with
       | Some d' => ∃ d, st !! x = Some d ∧ d' ⊆ d
       | None => st !! x = None
       end.

(** [w] in the domain of [x] has a partner in the domain of [y]. *)
Definition supported (i j : nat) (w : string) (dy : list string) : Prop :=
  ∃ v c, v ∈ dy ∧ String.get i w = Some c ∧ String.get j v = Some c.

(** [x] crosses [y] as far as the engine can tell: it is reported as a
    neighbor of the variable [y]. *)
Definition crossing (cw : Crossword) (x y : variable) : Prop :=
  y ∈ variables cw ∧ x ∈ neighbors cw y.

Definition arc_consistent (cw : Crossword) (st : domains) : Prop :=
  ∀ x y i j dx w,
    crossing cw x y →
    overlaps cw !! (x, y) = Some (Some (i, j)) →
    st !! x = Some dx → w ∈ dx →
    ∃ dy, st !! y = Some dy ∧ supported i j w dy.

(** Every word of the domain of [x] has a partner in the domain of [y]. *)
Definition arc_supported (st : domains) (x y : variable) (i j : nat)
    : Prop :=
  ∃ dx, st !! x = Some dx
        ∧ Forall (fun w => ∃ dy, st !! y = Some dy ∧ supported i j w dy) dx.

(** The arc needs no revision in [st]. *)
Definition arc_ok (cw : Crossword) (st : domains) (a : arc) : Prop :=
  ∀ i j, overlaps cw !! a = Some (Some (i, j)) →
         arc_supported st a.1 a.2 i j.

(** A computation that never adds a word, however it ends. *)
Definition shrinking {A} (m : M A) : Prop := ∀ st, shrinks st (m st).2.

(** [body] either leaves the store alone, continues and establishes
    [Q] for the element, or makes the iterated set smaller. *)
Definition careful {A} (x : variable) (body : string → A → M (flow A))
    (I : A → Prop) (Q : string → domains → Prop) : Prop :=
  ∀ w acc st f st', I acc → body w acc st = (Ret f, st') →
    (st' = st ∧ ∃ a, f = Continue a ∧ I a ∧ Q w st)
    ∨ (∃ a d d', f = Continue a ∧ st !! x = Some d ∧ st' !! x = Some d'
                 ∧ List.length d' < List.length d).

(** The assignment gives every variable of the crossword a word. *)
Definition assigns_every_variable (cw : Crossword) (a : assignment) : Prop :=
  ∀ var, var ∈ variables cw → ∃ word, assignment_get a var = Some (Some word).

(** ** Example puzzles *)

Definition slot_A : variable := mkVariable 0 0 ACROSS 3.
Definition slot_B : variable := mkVariable 0 1 DOWN 3.
Definition slot_L : variable := mkVariable 0 0 ACROSS 4.

(** One ACROSS slot of length 3 on a 1x3 grid, vocabulary CAT, DOG. *)
Definition one_slot : Crossword :=
  mkCrossword [slot_A] ["CAT"; "DOG"] ∅ (fun _ => []).

(** One slot of length 4, vocabulary CAT, DOGS, BIRD. *)
Definition long_slot : Crossword :=
  mkCrossword [slot_L] ["CAT"; "DOGS"; "BIRD"] ∅ (fun _ => []).

(** Two crossing slots of length 3: letter 1 of [slot_A] is letter 0 of
    [slot_B]. *)
Definition cross_overlaps : gmap arc (option (nat * nat)) :=
  <[(slot_A, slot_B) := Some (1, 0)]> (<[(slot_B, slot_A) := Some (0, 1)]> ∅).

Definition cross_neighbors (var : variable) : list variable :=
  if decide (var = slot_A) then [slot_B]
  else if decide (var = slot_B) then [slot_A] else [].

Definition cross (vocabulary : list string) : Crossword :=
  mkCrossword [slot_A; slot_B] vocabulary cross_overlaps cross_neighbors.

Definition cross_domains (da db : list string) : domains :=
  <[slot_A := da]> (<[slot_B := db]> ∅).

(** ** letter_grid and print *)

(** The members of [Crossword] that the rendering reads: the size of the
    grid and, per cell, whether it can be filled. *)
Record Layout := mkLayout {
  height : nat;
  width : nat;
  structure : list (list bool)
}.

(** A 2D array of letters; [None] is an empty cell. *)
Abbreviation grid := (list (list (option ascii))).

(** [[[None for _ in range(width)] for _ in range(height)]]: every row is
    a list of its own. *)
Definition blank_grid (h w : nat) : grid := replicate h (replicate w None).

(** [letters[i][j] = c], with [IndexError] outside of the array. *)
Definition grid_set (g : grid) (i j : nat) (c : ascii) : outcome grid :=
  match g !! i with
  | None => Raise IndexError
  | Some row =>
      if decide (j < List.length row)%nat
      then Ret (<[i := <[j := Some c]> row]> g)
      else Raise IndexError
  end.

(** The cell of letter [k] of a word in slot [var]. *)
Definition cell_row (var : variable) (k : nat) : nat :=
  (var_i var + (if decide (var_direction var = DOWN) then k else 0))%nat.

Definition cell_col (var : variable) (k : nat) : nat :=
  (var_j var + (if decide (var_direction var = ACROSS) then k else 0))%nat.

(** [for k in range(len(word))]; [ks] are the values of [k] still to come. *)
Fixpoint place (var : variable) (word : string) (ks : list nat) (g : grid)
    : outcome grid :=
  match ks with
  | [] => Ret g
  | k :: rest =>
      match String.get k word with
      | None => Raise IndexError
      | Some c =>
          match grid_set g (cell_row var k) (cell_col var k) c with
          | Raise e => Raise e
          | Ret g' => place var word rest g'
          end
      end
  end.

(** The loop over [assignment.items()]; [len(None)] is a [TypeError]. *)
Fixpoint letter_grid_loop (items : assignment) (g : grid) : outcome grid :=
  match items with
  | [] => Ret g
  | (var, None) :: _ => Raise TypeError
  | (var, Some word) :: rest =>
      match place var word (seq 0 (String.length word)) g with
      | Raise e => Raise e
      | Ret g' => letter_grid_loop rest g'
      end
  end.

Definition letter_grid (ly : Layout) (a : assignment) : outcome grid :=
  letter_grid_loop a (blank_grid (height ly) (width ly)).

(** Standard output is the sequence of code points written so far. *)
Abbreviation stdout := (list N).

(** The string literal that [print] writes for a blocked cell.  In the
    source it consists of the three characters U+00E2, U+2013, U+02C6. *)
Definition block_literal : list N := [226; 8211; 710]%N.

Definition space_char : N := 32%N.
Definition newline_char : N := 10%N.

(** The body of the inner loop of [print] for the cell [(i, j)]:
    [structure[i][j]] is read first, [letters[i][j]] only for a cell that
    can be filled. *)
Definition print_cell (ly : Layout) (letters : grid) (i j : nat)
    : outcome (list N) :=
  match structure ly !! i with
  | None => Raise IndexError
  | Some srow =>
      match srow !! j with
      | None => Raise IndexError
      | Some true =>
          match letters !! i with
          | None => Raise IndexError
          | Some lrow =>
              match lrow !! j with
              | None => Raise IndexError
              | Some (Some c) => Ret [N_of_ascii c]
              | Some None => Ret [space_char]
              end
          end
      | Some false => Ret block_literal
      end
  end.

(** [for j in range(width)] followed by [print()]. *)
Fixpoint print_row (ly : Layout) (letters : grid) (i : nat) (js : list nat)
    (out : stdout) : outcome unit * stdout :=
  match js with
  | [] => (Ret tt, (out ++ [newline_char])%list)
  | j :: rest =>
      match print_cell ly letters i j with
      | Raise e => (Raise e, out)
      | Ret s => print_row ly letters i rest (out ++ s)%list
      end
  end.

(** [for i in range(height)]. *)
Fixpoint print_rows (ly : Layout) (letters : grid) (rows : list nat)
    (out : stdout) : outcome unit * stdout :=
  match rows with
  | [] => (Ret tt, out)
  | i :: rest =>
      match print_row ly letters i (seq 0 (width ly)) out with
      | (Raise e, out') => (Raise e, out')
      | (Ret _, out') => print_rows ly letters rest out'
      end
  end.

(** [CrosswordCreator.print]: what is written after [out], and how the
    method ends. *)
Definition print (ly : Layout) (a : assignment) (out : stdout)
    : outcome unit * stdout :=
  match letter_grid ly a with
  | Raise e => (Raise e, out)
  | Ret letters => print_rows ly letters (seq 0 (height ly)) out
  end.

(** [g[r][c]], when the cell exists. *)
Definition cell_at (g : grid) (r c : nat) : option (option ascii) :=
  match g !! r with
  | Some row => row !! c
  | None => None
  end.

(** The slot [var] with a word of [n] letters covers the cell [(r, c)]. *)
Definition covers (var : variable) (n : nat) (r c : nat) : Prop :=
  ∃ k, (k < n)%nat ∧ cell_row var k = r ∧ cell_col var k = c.

(** The word in slot [var] lies inside a grid of [h] rows and [w] columns. *)
Definition fits (h w : nat) (var : variable) (word : string) : Prop :=
  ∀ k, (k < String.length word)%nat →
       (cell_row var k < h)%nat ∧ (cell_col var k < w)%nat.

(** The array has [h] rows of [w] cells. *)
Definition grid_dims (h w : nat) (g : grid) : Prop :=
  List.length g = h ∧ Forall (fun row => List.length row = w) g.

(** The number of cells of the structure that cannot be filled. *)
Definition blocked_cells (ly : Layout) : nat :=
  List.length (filter (fun b => b = false) (List.concat (structure ly))).

(** The structure has one entry per cell of the grid. *)
Definition structure_dims (ly : Layout) : Prop :=
  List.length (structure ly) = height ly
  ∧ Forall (fun row => List.length row = width ly) (structure ly).

(** A 2x3 grid with one blocked cell, and a layout for the crossing
    slots [slot_A] and [slot_B]. *)
Definition small_layout : Layout :=
  mkLayout 2 3 [[true; true; true]; [false; true; true]].

Definition cross_layout : Layout :=
  mkLayout 3 3 [[true; true; true]; [false; true; false]; [false; true; false]].

(** Every variable of the crossword has a domain, and every word in it
    has the length of the variable. *)
Definition node_consistent (cw : Crossword) (st : domains) : Prop :=
  ∀ var, var ∈ variables cw →
    ∃ d, st !! var = Some d
         ∧ Forall (fun w => String.length w = var_length var) d.

(** A puzzle with two slots that do not cross. *)
Definition apart : Crossword :=
  mkCrossword [slot_A; slot_L] ["CAT"; "DOGS"] ∅ (fun _ => []).

(** ** Domains only shrink *)

Section shrinking.

Lemma shrinks_refl (st : domains) : shrinks st st.
Proof.
  intros x. destruct (st !! x) as [d|] eqn:E; [|done].
  exists d. by split.
Qed.

Lemma shrinks_trans (st1 st2 st3 : domains) :
  shrinks st1 st2 → shrinks st2 st3 → shrinks st1 st3.
Proof.
  intros H12 H23 x. specialize (H12 x). specialize (H23 x).
  destruct (st3 !! x) as [d3|].
  - destruct H23 as (d2 & E2 & S2). rewrite E2 in H12.
    destruct H12 as (d1 & E1 & S1). exists d1. split; [done|].
    by etrans.
  - by rewrite H23 in H12.
Qed.

Lemma shrinking_ret {A} (a : A) : shrinking (ret a).
Proof. intros st. apply shrinks_refl. Qed.

Lemma shrinking_raise {A} (e : exn) : shrinking (@raise A e).
Proof. intros st. apply shrinks_refl. Qed.

Lemma shrinking_bind {A B} (m : M A) (k : A → M B) :
  shrinking m → (∀ a, shrinking (k a)) → shrinking (bind m k).
Proof.
  intros Hm Hk st. unfold bind. specialize (Hm st).
  destruct (m st) as [[a|e] st1]; simpl in *; [|done].
  eapply shrinks_trans; [done|]. apply Hk.
Qed.

Lemma shrinking_set_remove x w : shrinking (set_remove x w).
Proof.
  intros st. unfold set_remove.
  destruct (st !! x) as [d|] eqn:E; [|apply shrinks_refl].
  case_decide; [|apply shrinks_refl].
  simpl. intros z. destruct (decide (x = z)) as [->|Hne].
  - rewrite lookup_insert_eq. exists d. split; [done|].
    intros v Hv. by apply list_elem_of_filter in Hv as [_ ?].
  - rewrite lookup_insert_ne; [|done].
    destruct (st !! z) as [dz|] eqn:Ez; [|done].
    exists dz. by split.
Qed.

Lemma shrinking_set_iter {A} x used pending
    (body : string → A → M (flow A)) acc :
  (∀ w a, shrinking (body w a)) → shrinking (set_iter x used pending body acc).
Proof.
  intros Hbody. revert acc.
  induction pending as [|w rest IH]; intros acc st; simpl.
  - destruct (st !! x); [|apply shrinks_refl].
    case_decide; apply shrinks_refl.
  - destruct (st !! x); [|apply shrinks_refl].
    case_decide; [|apply shrinks_refl].
    specialize (Hbody w acc st).
    destruct (body w acc st) as [[[a|a]|e] st1]; simpl in *; [|done..].
    eapply shrinks_trans; [done|]. apply IH.
Qed.

Lemma shrinking_for_in_domain {A} x (body : string → A → M (flow A)) acc :
  (∀ w a, shrinking (body w a)) → shrinking (for_in_domain x body acc).
Proof.
  intros Hbody st. unfold for_in_domain.
  destruct (st !! x); [|apply shrinks_refl].
  by apply shrinking_set_iter.
Qed.

Lemma shrinking_node_body var value u : shrinking (node_body var value u).
Proof.
  unfold node_body. case_decide; [|apply shrinking_ret].
  apply shrinking_bind; [apply shrinking_set_remove|].
  intros _. apply shrinking_ret.
Qed.

Lemma shrinking_node_loop vars : shrinking (node_loop vars).
Proof.
  induction vars as [|var rest IH]; simpl; [apply shrinking_ret|].
  apply shrinking_bind; [|done].
  apply shrinking_for_in_domain, shrinking_node_body.
Qed.

Lemma shrinking_index w i : shrinking (index w i).
Proof.
  unfold index. destruct (String.get i w);
    [apply shrinking_ret | apply shrinking_raise].
Qed.

Lemma shrinking_revise_inner xval i j yval s :
  shrinking (revise_inner xval i j yval s).
Proof.
  unfold revise_inner.
  apply shrinking_bind; [apply shrinking_index|]. intros a.
  apply shrinking_bind; [apply shrinking_index|]. intros b.
  case_decide; apply shrinking_ret.
Qed.

Lemma shrinking_revise_body x y i j xval r :
  shrinking (revise_body x y i j xval r).
Proof.
  unfold revise_body. apply shrinking_bind.
  - apply shrinking_for_in_domain. intros. apply shrinking_revise_inner.
  - intros [|]; [apply shrinking_ret|].
    apply shrinking_bind; [apply shrinking_set_remove|].
    intros _. apply shrinking_ret.
Qed.

Lemma shrinking_revise cw x y : shrinking (revise cw x y).
Proof.
  unfold revise.
  destruct (overlaps cw !! (x, y)) as [[[i j]|]|];
    [|apply shrinking_ret|apply shrinking_raise].
  apply shrinking_for_in_domain. intros. apply shrinking_revise_body.
Qed.

Lemma ac3_while_shrinks cw fuel : ∀ arcs st r arcs' st',
  ac3_while cw fuel arcs st = Some (r, arcs', st') → shrinks st st'.
Proof.
  induction fuel as [|fuel IH]; intros [|[x y] arcs] st r arcs' st' H;
    simpl in H; simplify_eq; try apply shrinks_refl.
  pose proof (shrinking_revise cw x y st) as Hrev.
  destruct (revise cw x y st) as [[[|]|e] st1]; simpl in Hrev.
  - destruct (st1 !! x) as [dx|]; [|by simplify_eq].
    case_decide; [by simplify_eq|].
    eapply shrinks_trans; [done|]. by eapply IH.
  - eapply shrinks_trans; [done|]. by eapply IH.
  - by simplify_eq.
Qed.

End shrinking.

(** ** What a loop that returns must have done

    A set that lost an element stops its own iteration: the next [next]
    raises.  So a loop over a domain that ends normally has removed
    nothing, and every element passed the test of the body. *)

Section returning.

Lemma remove_length (w : string) (d : list string) :
  w ∈ d → List.length (filter (fun v => v ≠ w) d) < List.length d.
Proof.
  induction d as [|v d IH]; intros Hin; [by apply elem_of_nil in Hin|].
  rewrite filter_cons. apply elem_of_cons in Hin as [<-|Hin].
  - rewrite decide_False; [|by intros ?]. simpl.
    pose proof (length_filter (fun v => v ≠ w) d). lia.
  - specialize (IH Hin). case_decide; simpl; lia.
Qed.

Lemma set_remove_ret x w st u st' :
  set_remove x w st = (Ret u, st') →
  ∃ d d', st !! x = Some d ∧ st' !! x = Some d'
          ∧ List.length d' < List.length d.
Proof.
  unfold set_remove. intros H.
  destruct (st !! x) as [d|] eqn:E; [|done].
  case_decide; [|done]. simplify_eq.
  exists d, (filter (fun v => v ≠ w) d).
  rewrite lookup_insert_eq. split_and!; [done..|by apply remove_length].
Qed.

Lemma set_iter_size_changed {A} x used pending
    (body : string → A → M (flow A)) acc st d :
  st !! x = Some d → List.length d ≠ used →
  set_iter x used pending body acc st = (Raise RuntimeError, st).
Proof.
  intros E Hne. destruct pending; simpl; rewrite E; by rewrite decide_False.
Qed.

Lemma set_iter_returns {A} x (body : string → A → M (flow A)) I Q :
  careful x body I Q →
  ∀ pending used acc st a st',
    I acc → set_iter x used pending body acc st = (Ret a, st') →
    st' = st ∧ I a ∧ Forall (fun w => Q w st) pending.
Proof.
  intros Hbody. induction pending as [|w rest IH];
    intros used acc st a st' HI H; simpl in H;
    destruct (st !! x) as [cur|] eqn:E; try done;
    case_decide as Hlen; try done.
  - by simplify_eq.
  - destruct (body w acc st) as [[f|e] st1] eqn:Eb; [|done].
    destruct (Hbody _ _ _ _ _ HI Eb)
      as [[-> (a1 & -> & HI1 & HQ)]|(a1 & d & d' & -> & Ed & Ed' & Hlt)].
    + destruct (IH _ _ _ _ _ HI1 H) as (-> & Ha & Hrest).
      split_and!; [done..|]. by constructor.
    + rewrite (set_iter_size_changed _ _ _ _ _ _ d') in H; [done..|].
      simplify_eq. lia.
Qed.

Lemma for_in_domain_returns {A} x (body : string → A → M (flow A)) I Q
    acc st a st' :
  careful x body I Q → I acc →
  for_in_domain x body acc st = (Ret a, st') →
  st' = st ∧ I a ∧ ∃ d, st !! x = Some d ∧ Forall (fun w => Q w st) d.
Proof.
  intros Hbody HI. unfold for_in_domain.
  destruct (st !! x) as [d|] eqn:E; [|done]. intros H.
  destruct (set_iter_returns _ _ _ _ Hbody _ _ _ _ _ _ HI H) as (-> & ? & ?).
  split_and!; [done..|]. by exists d.
Qed.

(** *** enforce_node_consistency *)

Lemma careful_node_body var :
  careful var (node_body var) (fun _ => True)
    (fun w _ => String.length w = var_length var).
Proof.
  intros w [] st f st' _. unfold node_body. case_decide as Hlen.
  - unfold bind. destruct (set_remove var w st) as [[[]|e] st1] eqn:Er;
      [|done].
    intros H. unfold ret in H. simplify_eq. right.
    destruct (set_remove_ret _ _ _ _ _ Er) as (d & d' & ? & ? & ?).
    by exists tt, d, d'.
  - intros H. unfold ret in H. simplify_eq. left.
    split; [done|]. exists tt. split_and!; [done..|].
    by destruct (decide (String.length w = var_length var)).
Qed.

Lemma node_loop_returns vars st u st' :
  node_loop vars st = (Ret u, st') →
  st' = st
  ∧ Forall (fun var => ∃ d, st !! var = Some d
              ∧ Forall (fun w => String.length w = var_length var) d) vars.
Proof.
  revert st. induction vars as [|var rest IH]; intros st H; simpl in H.
  - unfold ret in H. by simplify_eq.
  - unfold bind in H.
    destruct (for_in_domain var (node_body var) () st) as [[[]|e] st1] eqn:E;
      [|done].
    destruct (for_in_domain_returns _ _ _ _ _ _ _ _
                (careful_node_body var) I E) as (-> & _ & Hd).
    destruct (IH _ H) as (-> & Hrest). split; [done|]. by constructor.
Qed.

(** *** revise *)

Lemma index_pure w i st o st' : index w i st = (o, st') → st' = st.
Proof.
  unfold index. destruct (String.get i w); unfold ret, raise; congruence.
Qed.

Lemma revise_inner_step xval i j yval s st o st' :
  revise_inner xval i j yval s st = (o, st') →
  st' = st
  ∧ ∀ f, o = Ret f →
      (f = Break true
       ∧ ∃ c, String.get i xval = Some c ∧ String.get j yval = Some c)
      ∨ f = Continue s.
Proof.
  unfold revise_inner, bind, index, ret, raise.
  destruct (String.get i xval) as [a|]; [|intros; by simplify_eq].
  destruct (String.get j yval) as [b|]; [|intros; by simplify_eq].
  case_decide as Hab; intros H; simplify_eq; (split; [done|]);
    intros f [= <-]; [left|by right].
  split; [done|]. by exists b.
Qed.

Lemma revise_inner_loop xval i j y : ∀ pending used acc st out st',
  set_iter y used pending (revise_inner xval i j) acc st = (out, st') →
  st' = st ∧ (out = Ret true → acc = true ∨ supported i j xval pending).
Proof.
  induction pending as [|v rest IH]; intros used acc st out st' H;
    simpl in H; destruct (st !! y) as [cur|]; try (by simplify_eq);
    case_decide; try (by simplify_eq).
  - simplify_eq. split; [done|]. intros [= ->]. by left.
  - destruct (revise_inner xval i j v acc st) as [o st1] eqn:Es.
    destruct (revise_inner_step _ _ _ _ _ _ _ _ Es) as (-> & Hf).
    destruct o as [f|e]; [|by simplify_eq].
    destruct (Hf f eq_refl) as [(-> & c & Hc & Hc')| ->].
    + simplify_eq. split; [done|]. intros _. right.
      exists v, c. split_and!; [apply elem_of_cons; by left|done..].
    + destruct (IH _ _ _ _ _ H) as (-> & Hout). split; [done|].
      intros Ho. destruct (Hout Ho) as [?|(v' & c & Hin & ? & ?)]; [by left|].
      right. exists v', c. split_and!; [|done..].
      apply elem_of_cons. by right.
Qed.

Lemma careful_revise_body x y i j :
  careful x (revise_body x y i j) (fun revised => revised = false)
    (fun w st => ∃ dy, st !! y = Some dy ∧ supported i j w dy).
Proof.
  intros w revised st f st' -> H. unfold revise_body, bind in H.
  destruct (for_in_domain y (revise_inner w i j) false st)
    as [[satisfied|e] st1] eqn:E; [|done].
  unfold for_in_domain in E. destruct (st !! y) as [dy|] eqn:Ey; [|done].
  destruct (revise_inner_loop _ _ _ _ _ _ _ _ _ _ E) as (-> & Hsat).
  destruct satisfied.
  - unfold ret in H. simplify_eq. left. split; [done|].
    exists false. split_and!; [done..|]. exists dy. split; [done|].
    by destruct Hsat.
  - destruct (set_remove x w st) as [[[]|e] st1] eqn:Er; [|done].
    unfold ret in H. simplify_eq. right.
    destruct (set_remove_ret _ _ _ _ _ Er) as (d & d' & ? & ? & ?).
    by exists true, d, d'.
Qed.

(** [revise] returns only when it found nothing to remove, and then it
    returns [False]. *)
Lemma revise_returns cw x y st b st' :
  revise cw x y st = (Ret b, st') →
  st' = st ∧ b = false
  ∧ ∀ i j, overlaps cw !! (x, y) = Some (Some (i, j)) →
           arc_supported st x y i j.
Proof.
  unfold revise. destruct (overlaps cw !! (x, y)) as [[[i j]|]|]; [| |done].
  - intros H.
    destruct (for_in_domain_returns _ _ _ _ _ _ _ _
                (careful_revise_body x y i j) eq_refl H) as (-> & -> & Hd).
    split_and!; [done..|]. by intros ?? [= <- <-].
  - unfold ret. intros [= <- <-]. by split_and!.
Qed.

Lemma revise_not_true cw x y st st' : revise cw x y st ≠ (Ret true, st').
Proof. intros H. by destruct (revise_returns _ _ _ _ _ _ H) as (_ & ? & _). Qed.

End returning.

(** ** The worklist loop *)

Section worklist_loop.

Variable cw : Crossword.

(** The loop returns only when no arc needed a revision; the value is
    then [True], the worklist is empty and the store is untouched. *)
Lemma ac3_while_returns fuel : ∀ arcs st b arcs' st',
  ac3_while cw fuel arcs st = Some (Ret b, arcs', st') →
  st' = st ∧ b = true ∧ arcs' = [] ∧ Forall (arc_ok cw st) arcs.
Proof.
  induction fuel as [|fuel IH]; intros [|[x y] arcs] st b arcs' st' H;
    simpl in H; simplify_eq; try by split_and!.
  destruct (revise cw x y st) as [[[|]|e] st1] eqn:Er; [| |done].
  - by apply revise_not_true in Er.
  - destruct (revise_returns _ _ _ _ _ _ Er) as (-> & _ & Hsup).
    destruct (IH _ _ _ _ _ H) as (-> & -> & -> & Hrest).
    split_and!; [done..|]. by constructor.
Qed.

(** One iteration per arc of the initial worklist is enough. *)
Lemma ac3_while_total : ∀ (arcs : list arc) (fuel : nat) st,
  (List.length arcs ≤ fuel)%nat → is_Some (ac3_while cw fuel arcs st).
Proof.
  induction arcs as [|[x y] arcs IH]; intros fuel st Hfuel;
    [by destruct fuel|].
  destruct fuel as [|fuel]; simpl in *; [lia|].
  destruct (revise cw x y st) as [[[|]|e] st1] eqn:Er; [|apply IH; lia|done].
  by apply revise_not_true in Er.
Qed.

Lemma ac3_while_fuel : ∀ (arcs : list arc) (fuel : nat) st,
  (List.length arcs ≤ fuel)%nat →
  ac3_while cw fuel arcs st = ac3_while cw (List.length arcs) arcs st.
Proof.
  induction arcs as [|[x y] arcs IH]; intros fuel st Hfuel; [by destruct fuel|].
  destruct fuel as [|fuel]; simpl in *; [lia|].
  destruct (revise cw x y st) as [[[|]|e] st1] eqn:Er; [|apply IH; lia|done].
  by apply revise_not_true in Er.
Qed.

(** Arcs leave the worklist at the front. *)
Lemma ac3_while_suffix fuel : ∀ arcs st o arcs' st',
  ac3_while cw fuel arcs st = Some (o, arcs', st') → arcs' `suffix_of` arcs.
Proof.
  induction fuel as [|fuel IH]; intros [|[x y] arcs] st o arcs' st' H;
    simpl in H; simplify_eq; try done.
  destruct (revise cw x y st) as [[[|]|e] st1] eqn:Er.
  - by apply revise_not_true in Er.
  - apply suffix_cons_r. by eapply IH.
  - simplify_eq. by apply suffix_cons_r.
Qed.

(** Re-enqueued arcs go to the back. *)
Lemma enqueue_app x y : ∀ nbrs arcs,
  enqueue x y nbrs arcs
  = (arcs ++ map (fun z => (z, x)) (filter (fun z => z ≠ y) nbrs))%list.
Proof.
  induction nbrs as [|z nbrs IH]; intros arcs; simpl;
    [by rewrite app_nil_r|].
  rewrite filter_cons. case_decide; rewrite IH; [|done].
  by rewrite <- app_assoc.
Qed.

(** *** The initial worklist holds every arc *)

Lemma initial_arcs_inner_keeps var a : ∀ nbrs arcs,
  a ∈ arcs → a ∈ initial_arcs_inner var nbrs arcs.
Proof.
  induction nbrs as [|n nbrs IH]; intros arcs Hin; simpl; [done|].
  case_decide; apply IH; [done|]. apply elem_of_app. by left.
Qed.

Lemma initial_arcs_inner_adds var n : ∀ nbrs arcs,
  n ∈ nbrs → (n, var) ∈ initial_arcs_inner var nbrs arcs.
Proof.
  induction nbrs as [|m nbrs IH]; intros arcs Hin;
    [by apply elem_of_nil in Hin|].
  simpl. apply elem_of_cons in Hin as [->|Hin].
  - unfold tuple_or. case_decide; apply initial_arcs_inner_keeps; [done|].
    apply elem_of_app. right. apply elem_of_cons. by left.
  - case_decide; by apply IH.
Qed.

Lemma initial_arcs_outer_keeps a : ∀ vars arcs,
  a ∈ arcs → a ∈ initial_arcs_outer cw vars arcs.
Proof.
  induction vars as [|v vars IH]; intros arcs Hin; simpl; [done|].
  by apply IH, initial_arcs_inner_keeps.
Qed.

Lemma initial_arcs_complete x y : crossing cw x y → (x, y) ∈ initial_arcs cw.
Proof.
  intros [Hy Hx]. unfold initial_arcs. generalize (@nil arc).
  induction (variables cw) as [|v vars IH]; intros arcs;
    [by apply elem_of_nil in Hy|].
  simpl. apply elem_of_cons in Hy as [->|Hy]; [|by apply IH].
  by apply initial_arcs_outer_keeps, initial_arcs_inner_adds.
Qed.

End worklist_loop.

(** ** The consistency passes against the specification *)

(** C8. Domains only shrink during consistency enforcement: whatever way
    [enforce_node_consistency], [revise] or [ac3] ends (a return or an
    exception), every domain it leaves is a subset of the domain it found,
    and no domain appears or disappears. *)
Theorem domains_only_shrink (cw : Crossword) (st : domains) :
  shrinks st (enforce_node_consistency cw st).2
  ∧ (∀ x y, shrinks st (revise cw x y st).2)
  ∧ (∀ fuel arcs r arcs' st',
       ac3 cw fuel arcs st = Some (r, arcs', st') → shrinks st st').
Proof.
  split_and!.
  - apply shrinking_node_loop.
  - intros x y. apply shrinking_revise.
  - intros fuel arcs r arcs' st'. apply ac3_while_shrinks.
Qed.

Lemma domains_only_shrink_witness :
  shrinks (cross_domains ["CAT"; "DOG"] ["ACT"])
          (cross_domains ["CAT"] ["ACT"]).
Proof.
  apply (proj2 (proj2 (domains_only_shrink (cross [])
                         (cross_domains ["CAT"; "DOG"] ["ACT"])))
           2 None (Raise RuntimeError) []).
  vm_compute. reflexivity.
Defined.

(** C6. When [ac3()] (no [arcs] argument) returns [True], the domains are
    arc consistent: for every crossing pair [(x, y)] with overlap [(i, j)]
    every word of the domain of [x] has a word in the domain of [y] with
    the same letter at the overlap.  On a puzzle with one slot that has no
    neighbors, [ac3()] returns [True] and changes no domain. *)
Theorem ac3_arc_consistent (cw : Crossword) (fuel : nat) (st : domains) :
  (∀ arcs' st',
     ac3 cw fuel None st = Some (Ret true, arcs', st') → arc_consistent cw st')
  ∧ (∀ s, variables cw = [s] → neighbors cw s = [] →
          ac3 cw fuel None st = Some (Ret true, [], st)).
Proof.
  split.
  - intros arcs' st' H.
    apply ac3_while_returns in H as (-> & _ & _ & Hall).
    intros x y i j dx w Hcross Hov Hdx Hw.
    apply (initial_arcs_complete cw) in Hcross.
    rewrite Forall_forall in Hall.
    destruct (Hall _ Hcross i j Hov) as (dx' & Hdx' & Hsup). simpl in *.
    simplify_eq. rewrite Forall_forall in Hsup. by apply Hsup.
  - intros s Hvars Hnbrs. unfold ac3, worklist, initial_arcs.
    rewrite Hvars. simpl. rewrite Hnbrs. by destruct fuel.
Qed.

Lemma ac3_arc_consistent_witness :
  arc_consistent (cross []) (cross_domains ["CAT"] ["ACT"])
  ∧ ac3 one_slot 0 None (init_domains one_slot)
    = Some (Ret true, [], init_domains one_slot).
Proof.
  split.
  - apply (proj1 (ac3_arc_consistent (cross []) 2
                    (cross_domains ["CAT"] ["ACT"])) []).
    vm_compute. reflexivity.
  - apply (proj2 (ac3_arc_consistent one_slot 0 (init_domains one_slot))
             slot_A); reflexivity.
Defined.

(** C9. [ac3] terminates on every input: for every puzzle, every store and
    every initial worklist (the default one or a supplied one) the loop
    stops after at most one iteration per arc of the initial worklist, and
    a larger budget does not change the result. *)
Theorem ac3_terminates (cw : Crossword) (arcs : option (list arc))
    (st : domains) (fuel : nat) :
  (List.length (worklist cw arcs) ≤ fuel)%nat →
  is_Some (ac3 cw fuel arcs st)
  ∧ ac3 cw fuel arcs st = ac3 cw (List.length (worklist cw arcs)) arcs st.
Proof.
  intros Hfuel. split.
  - by apply ac3_while_total.
  - by apply ac3_while_fuel.
Qed.

Lemma ac3_terminates_witness :
  is_Some (ac3 (cross []) 5 None (cross_domains ["CAT"; "DOG"] ["ACT"]))
  ∧ ac3 (cross []) 5 None (cross_domains ["CAT"; "DOG"] ["ACT"])
    = ac3 (cross []) (List.length (worklist (cross []) None)) None
        (cross_domains ["CAT"; "DOG"] ["ACT"]).
Proof.
  apply (ac3_terminates (cross []) None (cross_domains ["CAT"; "DOG"] ["ACT"]) 5).
  vm_compute. lia.
Defined.

(** C10. [ac3] called with a supplied list works on that list itself: arcs
    leave it at the front (what is left is a suffix of what was supplied),
    re-enqueued arcs are put at the back, and when [ac3] returns [True] the
    list is empty.  Called with an empty list, [ac3] returns [True] at once
    and changes no domain. *)
Theorem ac3_supplied_list (cw : Crossword) (fuel : nat) (l : list arc)
    (st : domains) :
  (∀ arcs' st',
     ac3 cw fuel (Some l) st = Some (Ret true, arcs', st') → arcs' = [])
  ∧ (∀ o arcs' st',
       ac3 cw fuel (Some l) st = Some (o, arcs', st') → arcs' `suffix_of` l)
  ∧ (∀ x y nbrs,
       enqueue x y nbrs l
       = (l ++ map (fun z => (z, x)) (filter (fun z => z ≠ y) nbrs))%list)
  ∧ ac3 cw fuel (Some []) st = Some (Ret true, [], st).
Proof.
  split_and!.
  - intros arcs' st' H. by apply ac3_while_returns in H as (_ & _ & -> & _).
  - intros o arcs' st'. apply ac3_while_suffix.
  - intros x y nbrs. apply enqueue_app.
  - by destruct fuel.
Qed.

Lemma ac3_supplied_list_witness :
  @nil arc = []
  ∧ [(slot_B, slot_A)] `suffix_of` [(slot_A, slot_B); (slot_B, slot_A)].
Proof.
  split.
  - apply (proj1 (ac3_supplied_list (cross []) 1 [(slot_A, slot_B)]
                    (cross_domains ["CAT"] ["ACT"]))
             [] (cross_domains ["CAT"] ["ACT"])).
    vm_compute. reflexivity.
  - apply (proj1 (proj2 (ac3_supplied_list (cross []) 1
                           [(slot_A, slot_B); (slot_B, slot_A)]
                           (cross_domains ["CAT"] ["DOG"])))
             (Raise RuntimeError) _ (cross_domains [] ["DOG"])).
    vm_compute. reflexivity.
Defined.

(** ** Where the code leaves the specification *)

(** *** enforce_node_consistency *)

(** The method returns only when there was nothing to remove. *)
Lemma enforce_node_consistency_returns cw st u st' :
  enforce_node_consistency cw st = (Ret u, st') →
  st' = st
  ∧ ∀ var d w, var ∈ variables cw → st !! var = Some d → w ∈ d →
               String.length w = var_length var.
Proof.
  intros H. apply node_loop_returns in H as (-> & Hall). split; [done|].
  intros var d w Hvar Hd Hw. rewrite Forall_forall in Hall.
  destruct (Hall _ Hvar) as (d' & Hd' & Hlen). simplify_eq.
  rewrite Forall_forall in Hlen. by apply Hlen.
Qed.

(** C4. On the length-4 slot with vocabulary CAT, DOGS, BIRD the method
    removes CAT and is then stopped by [RuntimeError]: the set changed size
    while it was iterated.  It does not return. *)
Theorem enforce_node_consistency_raises :
  enforce_node_consistency long_slot (init_domains long_slot)
  = (Raise RuntimeError, {[ slot_L := ["DOGS"; "BIRD"] ]}).
Proof. vm_compute. reflexivity. Qed.

(** With two words of the wrong length the exception also leaves one of
    them in the domain. *)
Example enforce_node_consistency_leaves_short_word :
  enforce_node_consistency long_slot {[ slot_L := ["CAT"; "DOG"; "BIRD"] ]}
  = (Raise RuntimeError, {[ slot_L := ["DOG"; "BIRD"] ]}).
Proof. vm_compute. reflexivity. Qed.

(** *** revise *)

Lemma revise_no_overlap cw x y st :
  overlaps cw !! (x, y) = Some None → revise cw x y st = (Ret false, st).
Proof. intros H. unfold revise. by rewrite H. Qed.

Lemma revise_missing_key cw x y st :
  overlaps cw !! (x, y) = None → revise cw x y st = (Raise KeyError, st).
Proof. intros H. unfold revise. by rewrite H. Qed.

(** C5. With overlap (1, 0), domain CAT, DOG for the first slot and ACT for
    the second, DOG has no partner.  [revise] removes it and is then
    stopped by [RuntimeError] instead of returning [True]. *)
Theorem revise_raises_after_removal :
  revise (cross []) slot_A slot_B (cross_domains ["CAT"; "DOG"] ["ACT"])
  = (Raise RuntimeError, cross_domains ["CAT"] ["ACT"]).
Proof. vm_compute. reflexivity. Qed.

(** *** ac3 *)

Lemma ac3_never_false cw fuel arcs st arcs' st' :
  ac3 cw fuel arcs st ≠ Some (Ret false, arcs', st').
Proof.
  intros H. by apply ac3_while_returns in H as (_ & ? & _).
Qed.

(** C7. Two crossing slots with domains CAT and DOG: the first revision
    empties the domain of the second slot, and [ac3] is stopped by
    [RuntimeError] instead of returning [False]. *)
Theorem ac3_raises_on_emptied_domain :
  ac3 (cross []) 2 None (cross_domains ["CAT"] ["DOG"])
  = Some (Raise RuntimeError, [(slot_A, slot_B)], cross_domains ["CAT"] []).
Proof. vm_compute. reflexivity. Qed.

(** *** assignment_complete *)

(** The method looks at the values that are present and nowhere else. *)
Lemma assignment_complete_values cw a :
  assignment_complete cw a = true ↔ Forall (fun p => is_Some p.2) a.
Proof.
  unfold assignment_complete.
  induction a as [|[var [word|]] a IH]; simpl.
  - split; [by constructor|done].
  - rewrite IH. split; [intros ?; by constructor|].
    by intros ?%Forall_cons_1%proj2.
  - split; [done|]. intros [[? [=]] _]%Forall_cons_1.
Qed.

(** C3. The empty assignment is reported complete on the puzzle with one
    slot, although that slot has no word. *)
Theorem assignment_complete_empty :
  assignment_complete one_slot [] = true
  ∧ ¬ assigns_every_variable one_slot [].
Proof.
  split; [done|]. intros H.
  destruct (H slot_A) as [word Hword]; [|done].
  apply elem_of_cons. by left.
Qed.

(** *** consistent *)

Lemma consistent_inner_return cw a var val nbrs b :
  consistent_inner cw a var val nbrs = Ret (Return b) → b = false.
Proof.
  induction nbrs as [|n nbrs IH]; simpl; [done|].
  destruct (assignment_get a n) as [nval|]; [|done].
  destruct (overlaps cw !! (var, n)) as [[[i j]|]|]; [|done..].
  destruct (String.get i val); [|done].
  destruct nval as [nword|]; [|done].
  destruct (String.get j nword); [|done].
  case_decide; [|done]. by intros [= <-].
Qed.

(** No path through the method returns [True]. *)
Lemma consistent_never_true cw a : consistent cw a ≠ Ret (Some true).
Proof.
  unfold consistent. generalize (@nil (option string)).
  destruct a as [|[var val] rest]; intros values; simpl; [done|].
  case_decide; [done|]. destruct val as [word|]; [|done].
  case_decide; [done|].
  destruct (consistent_inner cw ((var, Some word) :: rest) var word
              (neighbors cw var)) as [[|b]|e] eqn:E; [done| |done].
  apply consistent_inner_return in E as ->. done.
Qed.

(** C2. The assignment of CAT to the only slot of the one-slot puzzle meets
    (a), (b) and (c); [consistent] raises [TypeError] at
    [values.append[val]].  On the empty assignment it returns [None]. *)
Theorem consistent_raises_on_valid_assignment :
  consistent one_slot [(slot_A, Some "CAT")] = Raise TypeError
  ∧ consistent one_slot [] = Ret None.
Proof. split; reflexivity. Qed.

(** *** solve *)

Lemma solve_never_returns cw fuel st a st' :
  solve cw fuel st ≠ Some (Ret a, st').
Proof.
  unfold solve.
  destruct (enforce_node_consistency cw st) as [[u|e] st1]; [|done].
  destruct (ac3 cw fuel None st1) as [[[[b|e] arcs] st2]|]; done.
Qed.

(** C1. On the one-slot puzzle with vocabulary CAT, DOG, [solve] ends with
    [NotImplementedError] raised by [backtrack]: neither an assignment nor
    [None] is returned. *)
Theorem solve_raises_NotImplementedError :
  solve one_slot 0 (init_domains one_slot)
  = Some (Raise NotImplementedError, init_domains one_slot).
Proof. vm_compute. reflexivity. Qed.

(** ** Further properties of the engine *)

(** *** __init__ *)

(** What [self.domains[var]] is right after [__init__]. *)
Lemma init_domains_get (cw : Crossword) (var : variable) :
  init_domains cw !! var
  = if decide (var ∈ variables cw) then Some (words cw) else None.
Proof.
  unfold init_domains. induction (variables cw) as [|v vars IH].
  - case_decide as Hin; [by apply elem_of_nil in Hin|]. apply lookup_empty.
  - rewrite map_cons, list_to_map_cons. simpl.
    destruct (decide (v = var)) as [->|Hne].
    + rewrite lookup_insert_eq. rewrite decide_True; [done|].
      apply elem_of_cons. by left.
    + rewrite lookup_insert_ne by done. rewrite IH.
      destruct (decide (var ∈ vars)) as [Hin|Hnin].
      * rewrite decide_True; [done|]. apply elem_of_cons. by right.
      * rewrite decide_False; [done|].
        intros [?|?]%elem_of_cons; [by subst|done].
Qed.

(** X1. [__init__] gives a domain to the variables of the crossword and to
    nothing else, and every domain is the whole vocabulary. *)
Theorem init_domains_lookup (cw : Crossword) (var : variable) :
  init_domains cw !! var
  = if decide (var ∈ variables cw) then Some (words cw) else None.
Proof. intros. apply init_domains_get. Qed.

(** *** enforce_node_consistency *)

Lemma set_iter_nil {A} x (body : string → A → M (flow A)) acc st cur :
  st !! x = Some cur →
  set_iter x (List.length cur) [] body acc st = (Ret acc, st).
Proof. intros E. cbn [set_iter]. rewrite E. by rewrite decide_True. Qed.

Lemma set_iter_cons {A} x w rest (body : string → A → M (flow A)) acc st cur :
  st !! x = Some cur →
  set_iter x (List.length cur) (w :: rest) body acc st
  = match body w acc st with
    | (Ret (Continue a), st') => set_iter x (List.length cur) rest body a st'
    | (Ret (Break a), st') => (Ret a, st')
    | (Raise e, st') => (Raise e, st')
    end.
Proof. intros E. cbn [set_iter]. rewrite E. by rewrite decide_True. Qed.

Lemma node_body_right var w st :
  String.length w = var_length var →
  node_body var w tt st = (Ret (Continue tt), st).
Proof. intros H. unfold node_body. by rewrite decide_False by (by intros ?). Qed.

Lemma node_body_wrong var w st d :
  String.length w ≠ var_length var → st !! var = Some d → w ∈ d →
  node_body var w tt st
  = (Ret (Continue tt), <[var := filter (fun v => v ≠ w) d]> st).
Proof.
  intros H Hd Hw. unfold node_body. rewrite decide_True by done.
  unfold bind, set_remove, ret. rewrite Hd. by rewrite decide_True.
Qed.

(** The loop over one domain: it ends normally when every pending word has
    the right length, and otherwise removes the first word that has not and
    is stopped by the size check. *)
Lemma node_iter_outcomes var d st : st !! var = Some d →
  ∀ pending, pending ⊆ d →
    (Forall (fun w => String.length w = var_length var) pending
     ∧ set_iter var (List.length d) pending (node_body var) tt st = (Ret tt, st))
    ∨ ∃ w, w ∈ pending ∧ String.length w ≠ var_length var
           ∧ set_iter var (List.length d) pending (node_body var) tt st
             = (Raise RuntimeError, <[var := filter (fun v => v ≠ w) d]> st).
Proof.
  intros Hd. induction pending as [|w rest IH]; intros Hsub.
  - left. split; [done|]. by apply set_iter_nil.
  - rewrite (set_iter_cons _ _ _ _ _ _ _ Hd).
    assert (w ∈ d) as Hw by (apply Hsub, elem_of_cons; by left).
    destruct (decide (String.length w = var_length var)) as [Hlen|Hlen].
    + rewrite (node_body_right _ _ _ Hlen).
      destruct IH as [[Hall Hret]|(w' & Hin & Hlen' & Hraise)].
      * intros v Hv. apply Hsub, elem_of_cons. by right.
      * left. split; [|done]. by constructor.
      * right. exists w'. split_and!; [apply elem_of_cons; by right|done..].
    + right. exists w. split_and!; [apply elem_of_cons; by left|done|].
      rewrite (node_body_wrong _ _ _ _ Hlen Hd Hw).
      apply (set_iter_size_changed _ _ _ _ _ _ (filter (fun v => v ≠ w) d)).
      * apply lookup_insert_eq.
      * pose proof (remove_length w d Hw). lia.
Qed.

Lemma node_loop_outcomes st : ∀ vars,
  (Forall (fun var => ∃ d, st !! var = Some d
             ∧ Forall (fun w => String.length w = var_length var) d) vars
   ∧ node_loop vars st = (Ret tt, st))
  ∨ (∃ var, var ∈ vars ∧ st !! var = None
            ∧ node_loop vars st = (Raise KeyError, st))
  ∨ (∃ var d w, var ∈ vars ∧ st !! var = Some d ∧ w ∈ d
                ∧ String.length w ≠ var_length var
                ∧ node_loop vars st
                  = (Raise RuntimeError, <[var := filter (fun v => v ≠ w) d]> st)).
Proof.
  induction vars as [|var rest IH]; simpl.
  - left. by split.
  - unfold bind, for_in_domain. destruct (st !! var) as [d|] eqn:Hd.
    + destruct (node_iter_outcomes var d st Hd d) as [[Hall ->]|(w & Hw & Hlen & ->)];
        [done| |].
      * destruct IH as [[Hrest Hret]|[(v & Hv & Hnone & Hraise)
                                     |(v & d' & w & Hv & Hd' & Hw & Hlen & Hraise)]].
        -- left. split; [|done]. constructor; [|done]. by exists d.
        -- right. left. exists v. split_and!; [apply elem_of_cons; by right|done..].
        -- right. right. exists v, d', w.
           split_and!; [apply elem_of_cons; by right|done..].
      * right. right. exists var, d, w.
        split_and!; [apply elem_of_cons; by left|done..].
    + right. left. exists var. split_and!; [apply elem_of_cons; by left|done..].
Qed.

(** Returning and node consistency of the store coincide. *)
Lemma node_consistent_returns (cw : Crossword) (st : domains) :
  enforce_node_consistency cw st = (Ret tt, st) ↔ node_consistent cw st.
Proof.
  split.
  - intros H. apply node_loop_returns in H as (_ & Hall).
    intros var Hvar. rewrite Forall_forall in Hall. by apply Hall.
  - intros Hnc. unfold enforce_node_consistency.
    destruct (node_loop_outcomes st (variables cw))
      as [[_ Hret]|[(v & Hv & Hnone & _)|(v & d & w & Hv & Hd & Hw & Hlen & _)]];
      [done| |].
    + destruct (Hnc v Hv) as (d & Hd & _). congruence.
    + destruct (Hnc v Hv) as (d' & Hd' & Hall). simplify_eq.
      rewrite Forall_forall in Hall. by apply Hall in Hw.
Qed.

(** X2. [enforce_node_consistency] returns exactly on the stores that are
    node consistent already, and then leaves the store as it is. *)
Theorem enforce_node_consistency_returns_iff (cw : Crossword) (st : domains) :
  enforce_node_consistency cw st = (Ret tt, st) ↔ node_consistent cw st.
Proof. intros. apply node_consistent_returns. Qed.

(** X3. The three ways [enforce_node_consistency] can end: it returns with
    the store untouched; it raises [KeyError] with the store untouched,
    because a variable has no domain; or it raises [RuntimeError] after
    removing one single word, of the wrong length, from the domain of one
    variable. *)
Theorem enforce_node_consistency_outcomes (cw : Crossword) (st : domains) :
  enforce_node_consistency cw st = (Ret tt, st)
  ∨ (∃ var, var ∈ variables cw ∧ st !! var = None
            ∧ enforce_node_consistency cw st = (Raise KeyError, st))
  ∨ (∃ var d w, var ∈ variables cw ∧ st !! var = Some d ∧ w ∈ d
                ∧ String.length w ≠ var_length var
                ∧ enforce_node_consistency cw st
                  = (Raise RuntimeError, <[var := filter (fun v => v ≠ w) d]> st)).
Proof.
  unfold enforce_node_consistency.
  destruct (node_loop_outcomes st (variables cw)) as [[_ H]|[H|H]]; auto.
Qed.

(** *** revise *)

Lemma get_is_Some (s : string) : ∀ n,
  (n < String.length s)%nat → is_Some (String.get n s).
Proof.
  induction s as [|c s IH]; intros n Hn; simpl in *; [lia|].
  destruct n as [|n]; [done|]. apply IH. lia.
Qed.

Lemma revise_inner_eq xval i j yval s st a b :
  String.get i xval = Some a → String.get j yval = Some b →
  revise_inner xval i j yval s st
  = (Ret (if decide (a = b) then Break true else Continue s), st).
Proof.
  intros Ha Hb. unfold revise_inner, bind, index, ret. rewrite Ha, Hb.
  by case_decide.
Qed.

(** The search for a partner of [xval] in the domain of [y]. *)
Lemma partner_loop_outcomes xval i j y st cur : st !! y = Some cur →
  ∀ pending,
    (supported i j xval pending
     ∧ set_iter y (List.length cur) pending (revise_inner xval i j) false st
       = (Ret true, st))
    ∨ (¬ supported i j xval pending
       ∧ set_iter y (List.length cur) pending (revise_inner xval i j) false st
         = (Ret false, st))
    ∨ set_iter y (List.length cur) pending (revise_inner xval i j) false st
      = (Raise IndexError, st).
Proof.
  intros Hy. induction pending as [|v rest IH].
  - right. left. split; [|by apply set_iter_nil].
    intros (v & c & Hv & _). by apply elem_of_nil in Hv.
  - rewrite (set_iter_cons _ _ _ _ _ _ _ Hy).
    destruct (String.get i xval) as [a|] eqn:Ha; cycle 1.
    { right. right. unfold revise_inner, bind, index, raise. by rewrite Ha. }
    destruct (String.get j v) as [b|] eqn:Hb; cycle 1.
    { right. right. unfold revise_inner, bind, index, ret, raise.
      by rewrite Ha, Hb. }
    rewrite (revise_inner_eq _ _ _ _ _ _ _ _ Ha Hb).
    destruct (decide (a = b)) as [->|Hab].
    + left. split; [|done]. exists v, b.
      split_and!; [apply elem_of_cons; by left|done..].
    + destruct IH as [[(v' & c & Hv' & Hc & Hc') Hret]|[[Hno Hret]|Hraise]].
      * left. split; [|done]. exists v', c.
        split_and!; [apply elem_of_cons; by right|done..].
      * right. left. split; [|done].
        intros (v' & c & [->|Hv']%elem_of_cons & Hc & Hc').
        -- congruence.
        -- apply Hno. by exists v', c.
      * by right; right.
Qed.

(** A partner is found when no word looked at before it is too short. *)
Lemma partner_loop_found xval i j y st cur : st !! y = Some cur →
  ∀ pending,
    supported i j xval pending →
    Forall (fun v => (j < String.length v)%nat) pending →
    set_iter y (List.length cur) pending (revise_inner xval i j) false st
    = (Ret true, st).
Proof.
  intros Hy pending Hsup Hlong.
  destruct (partner_loop_outcomes xval i j y st cur Hy pending)
    as [[_ H]|[[Hno _]|Hraise]]; [done|done|].
  exfalso. destruct Hsup as (v0 & c & _ & Hc & _).
  induction pending as [|v rest IH]; [by rewrite (set_iter_nil _ _ _ _ _ Hy) in Hraise|].
  rewrite (set_iter_cons _ _ _ _ _ _ _ Hy) in Hraise.
  apply Forall_cons_1 in Hlong as [Hv Hrest].
  destruct (get_is_Some _ _ Hv) as [b Hb].
  rewrite (revise_inner_eq _ _ _ _ _ _ _ _ Hc Hb) in Hraise.
  case_decide; [done|]. by apply IH.
Qed.

(** One round of the loop of [revise]. *)
Lemma revise_body_outcomes x y i j w st dx : st !! x = Some dx → w ∈ dx →
  revise_body x y i j w false st = (Ret (Continue false), st)
  ∨ revise_body x y i j w false st = (Raise KeyError, st)
  ∨ revise_body x y i j w false st = (Raise IndexError, st)
  ∨ ∃ dy, st !! y = Some dy ∧ ¬ supported i j w dy
          ∧ revise_body x y i j w false st
            = (Ret (Continue true), <[x := filter (fun v => v ≠ w) dx]> st).
Proof.
  intros Hx Hw. unfold revise_body, bind, for_in_domain.
  destruct (st !! y) as [dy|] eqn:Hy; [|by right; left].
  destruct (partner_loop_outcomes w i j y st dy Hy dy)
    as [[_ ->]|[[Hno ->]| ->]].
  - by left.
  - right. right. right. exists dy. split_and!; [done..|].
    unfold set_remove, ret. rewrite Hx. by rewrite decide_True.
  - by right; right; left.
Qed.

(** The loop of [revise] over the domain of [x]. *)
Lemma revise_loop_outcomes x y i j st dx : st !! x = Some dx →
  ∀ pending, pending ⊆ dx →
    let r := set_iter x (List.length dx) pending (revise_body x y i j) false st in
    r = (Ret false, st) ∨ r = (Raise KeyError, st) ∨ r = (Raise IndexError, st)
    ∨ ∃ dy w, st !! y = Some dy ∧ w ∈ pending ∧ ¬ supported i j w dy
              ∧ r = (Raise RuntimeError, <[x := filter (fun v => v ≠ w) dx]> st).
Proof.
  intros Hx. induction pending as [|w rest IH]; intros Hsub r; subst r.
  - left. by apply set_iter_nil.
  - rewrite (set_iter_cons _ _ _ _ _ _ _ Hx).
    assert (w ∈ dx) as Hw by (apply Hsub, elem_of_cons; by left).
    assert (rest ⊆ dx) as Hrest
      by (intros v Hv; apply Hsub, elem_of_cons; by right).
    destruct (revise_body_outcomes x y i j w st dx Hx Hw)
      as [->|[->|[->|(dy & Hy & Hno & ->)]]].
    + destruct (IH Hrest) as [?|[?|[?|(dy' & w' & ? & ? & ? & ?)]]]; auto.
      right. right. right. exists dy', w'.
      split_and!; [done|apply elem_of_cons; by right|done..].
    + by right; left.
    + by right; right; left.
    + right. right. right. exists dy, w.
      split_and!; [done|apply elem_of_cons; by left|done|].
      apply (set_iter_size_changed _ _ _ _ _ _ (filter (fun v => v ≠ w) dx)).
      * apply lookup_insert_eq.
      * pose proof (remove_length w dx Hw). lia.
Qed.

(** The outcomes of [revise], case by case. *)
Lemma revise_cases (cw : Crossword) (x y : variable) (st : domains) :
  revise cw x y st = (Ret false, st)
  ∨ revise cw x y st = (Raise KeyError, st)
  ∨ revise cw x y st = (Raise IndexError, st)
  ∨ ∃ i j dx dy w,
      overlaps cw !! (x, y) = Some (Some (i, j))
      ∧ st !! x = Some dx ∧ st !! y = Some dy
      ∧ w ∈ dx ∧ ¬ supported i j w dy
      ∧ revise cw x y st
        = (Raise RuntimeError, <[x := filter (fun v => v ≠ w) dx]> st).
Proof.
  unfold revise. destruct (overlaps cw !! (x, y)) as [[[i j]|]|] eqn:Hov;
    [|by left|by right; left].
  unfold for_in_domain. destruct (st !! x) as [dx|] eqn:Hx; [|by right; left].
  destruct (revise_loop_outcomes x y i j st dx Hx dx)
    as [?|[?|[?|(dy & w & ? & ? & ? & ?)]]]; auto.
  right. right. right. by exists i, j, dx, dy, w.
Qed.

(** X4. The ways [revise] can end.  It returns [False] with the store
    untouched, or raises [KeyError] or [IndexError] with the store
    untouched, or raises [RuntimeError] after removing one single word from
    the domain of [x]; that word has no partner in the domain of [y].  No
    other domain changes, and [True] is never returned. *)
Theorem revise_outcomes (cw : Crossword) (x y : variable) (st : domains) :
  revise cw x y st = (Ret false, st)
  ∨ revise cw x y st = (Raise KeyError, st)
  ∨ revise cw x y st = (Raise IndexError, st)
  ∨ ∃ i j dx dy w,
      overlaps cw !! (x, y) = Some (Some (i, j))
      ∧ st !! x = Some dx ∧ st !! y = Some dy
      ∧ w ∈ dx ∧ ¬ supported i j w dy
      ∧ revise cw x y st
        = (Raise RuntimeError, <[x := filter (fun v => v ≠ w) dx]> st).
Proof. intros. apply revise_cases. Qed.

(** X5. On an arc that is consistent already, [revise] changes nothing and
    returns [False]: the overlap is [(i, j)], every word of the domain of
    [x] has a partner in the domain of [y], and every word of the domain of
    [y] has a letter [j]. *)
Theorem revise_noop (cw : Crossword) (x y : variable) (i j : nat)
    (dx dy : list string) (st : domains) :
  overlaps cw !! (x, y) = Some (Some (i, j)) →
  st !! x = Some dx → st !! y = Some dy →
  Forall (fun v => (j < String.length v)%nat) dy →
  Forall (fun w => supported i j w dy) dx →
  revise cw x y st = (Ret false, st).
Proof.
  intros Hov Hx Hy Hlong Hsup. unfold revise, for_in_domain.
  rewrite Hov, Hx.
  assert (∀ pending, pending ⊆ dx →
            set_iter x (List.length dx) pending (revise_body x y i j) false st
            = (Ret false, st)) as Hloop; [|by apply Hloop].
  induction pending as [|w rest IH]; intros Hsub; [by apply set_iter_nil|].
  rewrite (set_iter_cons _ _ _ _ _ _ _ Hx).
  unfold revise_body at 1. unfold bind at 1. unfold for_in_domain. rewrite Hy.
  rewrite (partner_loop_found w i j y st dy Hy dy); [|..|done].
  - unfold ret at 1. apply IH. intros v Hv. apply Hsub, elem_of_cons. by right.
  - rewrite Forall_forall in Hsup. apply Hsup, Hsub, elem_of_cons. by left.
Qed.

Lemma revise_noop_witness :
  revise (cross []) slot_A slot_B (cross_domains ["CAT"; "BAT"] ["ACT"; "DOG"])
  = (Ret false, cross_domains ["CAT"; "BAT"] ["ACT"; "DOG"]).
Proof.
  apply (revise_noop (cross []) slot_A slot_B 1 0
           ["CAT"; "BAT"] ["ACT"; "DOG"]); [reflexivity..| |].
  - repeat constructor.
  - repeat constructor; exists "ACT", "A"%char;
      (split_and!; [apply elem_of_cons; by left|reflexivity..]).
Defined.

(** *** ac3 *)

Lemma initial_arcs_inner_elem var a : ∀ nbrs arcs,
  a ∈ initial_arcs_inner var nbrs arcs ↔ a ∈ arcs ∨ ∃ n, n ∈ nbrs ∧ a = (n, var).
Proof.
  induction nbrs as [|n nbrs IH]; intros arcs; simpl.
  - split; [by left|]. intros [?|(n & Hn & _)]; [done|].
    by apply elem_of_nil in Hn.
  - unfold tuple_or. case_decide as Hin; rewrite IH.
    + split; intros [?|(m & Hm & ->)]; auto.
      * right. exists m. split; [|done]. apply elem_of_cons. by right.
      * apply elem_of_cons in Hm as [->|Hm]; [by left|]. right. by exists m.
    + rewrite elem_of_app, elem_of_cons, elem_of_nil.
      split.
      * intros [[?|[->|[]]]|(m & Hm & ->)]; auto.
        -- right. exists n. split; [|done]. apply elem_of_cons. by left.
        -- right. exists m. split; [|done]. apply elem_of_cons. by right.
      * intros [?|(m & Hm & ->)]; auto.
        apply elem_of_cons in Hm as [->|Hm]; [by left; right; left|].
        right. by exists m.
Qed.

Lemma initial_arcs_inner_NoDup var : ∀ nbrs arcs,
  NoDup arcs → NoDup (initial_arcs_inner var nbrs arcs).
Proof.
  induction nbrs as [|n nbrs IH]; intros arcs Hnd; simpl; [done|].
  unfold tuple_or. case_decide as Hin; apply IH; [done|].
  apply NoDup_app. split_and!; [done| |apply NoDup_singleton].
  intros a Ha [->|[]%elem_of_nil]%elem_of_cons. done.
Qed.

Lemma initial_arcs_outer_elem cw a : ∀ vars arcs,
  a ∈ initial_arcs_outer cw vars arcs
  ↔ a ∈ arcs ∨ ∃ var n, var ∈ vars ∧ n ∈ neighbors cw var ∧ a = (n, var).
Proof.
  induction vars as [|v vars IH]; intros arcs; simpl.
  - split; [by left|]. intros [?|(var & n & Hv & _)]; [done|].
    by apply elem_of_nil in Hv.
  - rewrite IH, initial_arcs_inner_elem. split.
    + intros [[?|(n & Hn & ->)]|(var & n & Hv & Hn & ->)]; auto.
      * right. exists v, n. split_and!; [apply elem_of_cons; by left|done..].
      * right. exists var, n. split_and!; [apply elem_of_cons; by right|done..].
    + intros [?|(var & n & Hv & Hn & ->)]; auto.
      apply elem_of_cons in Hv as [->|Hv].
      * left. right. by exists n.
      * right. by exists var, n.
Qed.

Lemma initial_arcs_outer_NoDup cw : ∀ vars arcs,
  NoDup arcs → NoDup (initial_arcs_outer cw vars arcs).
Proof.
  induction vars as [|v vars IH]; intros arcs Hnd; simpl; [done|].
  by apply IH, initial_arcs_inner_NoDup.
Qed.

(** X6. The worklist that [ac3] builds for itself holds every arc
    [(neighbor, var)] of every variable, in both directions of a crossing
    when [neighbors] is symmetric, and holds each arc once.  (The test
    [((neigbor_var, var) or (var, neigbor_var)) in arcs] looks for
    [(neigbor_var, var)] only.) *)
Theorem initial_arcs_spec (cw : Crossword) :
  NoDup (initial_arcs cw)
  ∧ ∀ x y, (x, y) ∈ initial_arcs cw ↔ crossing cw x y.
Proof.
  split.
  - apply initial_arcs_outer_NoDup, NoDup_nil_2.
  - intros x y. unfold initial_arcs, crossing.
    rewrite initial_arcs_outer_elem. split.
    + intros [[]%elem_of_nil|(var & n & Hv & Hn & [= -> ->])]. done.
    + intros [Hy Hx]. right. by exists y, x.
Qed.

(** [ac3] returns [True] when, and only when, no arc is revised. *)
Lemma ac3_true_when (cw : Crossword) (fuel : nat) (arcs : option (list arc))
    (st : domains) :
  (List.length (worklist cw arcs) ≤ fuel)%nat →
  ac3 cw fuel arcs st = Some (Ret true, [], st)
  ↔ Forall (fun a => revise cw a.1 a.2 st = (Ret false, st)) (worklist cw arcs).
Proof.
  unfold ac3. generalize (worklist cw arcs). clear arcs. intros arcs.
  revert fuel. induction arcs as [|[x y] arcs IH]; intros fuel Hfuel.
  - split; [by constructor|]. by destruct fuel.
  - destruct fuel as [|fuel]; simpl in Hfuel; [lia|]. simpl.
    destruct (revise cw x y st) as [[[|]|e] st1] eqn:Er.
    + by apply revise_not_true in Er.
    + destruct (revise_returns _ _ _ _ _ _ Er) as (-> & _ & _).
      rewrite IH by lia. split; [by constructor|].
      by intros [_ ?]%Forall_cons_1.
    + split; [done|]. intros [Hr _]%Forall_cons_1. simpl in Hr. congruence.
Qed.

(** X7. Given one iteration per arc, [ac3] returns [True] exactly when
    [revise] has nothing to remove on any arc of the worklist; the store is
    then as it was and the worklist is empty. *)
Theorem ac3_true_iff (cw : Crossword) (fuel : nat) (arcs : option (list arc))
    (st : domains) :
  (List.length (worklist cw arcs) ≤ fuel)%nat →
  ac3 cw fuel arcs st = Some (Ret true, [], st)
  ↔ Forall (fun a => revise cw a.1 a.2 st = (Ret false, st)) (worklist cw arcs).
Proof. intros. by apply ac3_true_when. Qed.

Lemma ac3_true_iff_witness :
  ac3 (cross []) 2 None (cross_domains ["CAT"] ["ACT"])
  = Some (Ret true, [], cross_domains ["CAT"] ["ACT"])
  ↔ Forall (fun a => revise (cross []) a.1 a.2 (cross_domains ["CAT"] ["ACT"])
                     = (Ret false, cross_domains ["CAT"] ["ACT"]))
      (worklist (cross []) None).
Proof.
  apply (ac3_true_iff (cross []) 2 None (cross_domains ["CAT"] ["ACT"])).
  vm_compute. lia.
Defined.

(** X8. However [ac3] ends, it has removed at most one word: either the
    store is as it was, or [ac3] was stopped by [RuntimeError] and the
    store differs by one word taken from the domain of [x], for an arc
    [(x, y)] of the worklist. *)
Theorem ac3_removes_at_most_one_word (cw : Crossword) (fuel : nat)
    (arcs : option (list arc)) (st : domains) r arcs' st' :
  ac3 cw fuel arcs st = Some (r, arcs', st') →
  st' = st
  ∨ ∃ x y dx w, (x, y) ∈ worklist cw arcs ∧ st !! x = Some dx ∧ w ∈ dx
                ∧ r = Raise RuntimeError
                ∧ st' = <[x := filter (fun v => v ≠ w) dx]> st.
Proof.
  unfold ac3. generalize (worklist cw arcs). clear arcs. intros arcs.
  revert arcs. induction fuel as [|fuel IH]; intros [|[x y] arcs] H;
    simpl in H; simplify_eq; [by left..|].
  destruct (revise_cases cw x y st)
    as [Er|[Er|[Er|(i & j & dx & dy & w & _ & Hx & _ & Hw & _ & Er)]]];
    rewrite Er in H.
  - destruct (IH _ H) as [?|(x' & y' & dx & w & Hin & ?)]; [by left|].
    right. exists x', y', dx, w. split; [|done]. apply elem_of_cons. by right.
  - simplify_eq. by left.
  - simplify_eq. by left.
  - simplify_eq. right. exists x, y, dx, w.
    split_and!; [apply elem_of_cons; by left|done..].
Qed.

Lemma ac3_removes_at_most_one_word_witness :
  cross_domains ["CAT"] [] = cross_domains ["CAT"] ["DOG"]
  ∨ ∃ x y dx w, (x, y) ∈ worklist (cross []) None
                ∧ cross_domains ["CAT"] ["DOG"] !! x = Some dx ∧ w ∈ dx
                ∧ Raise RuntimeError = @Raise bool RuntimeError
                ∧ cross_domains ["CAT"] []
                  = <[x := filter (fun v => v ≠ w) dx]>
                      (cross_domains ["CAT"] ["DOG"]).
Proof.
  apply (ac3_removes_at_most_one_word (cross []) 2 None
           (cross_domains ["CAT"] ["DOG"]) (Raise RuntimeError)
           [(slot_A, slot_B)]).
  vm_compute. reflexivity.
Defined.

(** *** assignment_complete and consistent *)

Lemma consistent_inner_conflict cw a var word nbrs b :
  consistent_inner cw a var word nbrs = Ret (Return b) →
  ∃ n nword i j c c',
    n ∈ nbrs ∧ assignment_get a n = Some (Some nword)
    ∧ overlaps cw !! (var, n) = Some (Some (i, j))
    ∧ String.get i word = Some c ∧ String.get j nword = Some c' ∧ c ≠ c'.
Proof.
  induction nbrs as [|n nbrs IH]; simpl; [done|].
  destruct (assignment_get a n) as [nval|] eqn:Hn.
  - destruct (overlaps cw !! (var, n)) as [[[i j]|]|] eqn:Hov; [|done..].
    destruct (String.get i word) as [c|] eqn:Hc; [|done].
    destruct nval as [nword|]; [|done].
    destruct (String.get j nword) as [c'|] eqn:Hc'; [|done].
    case_decide as Hne.
    + intros _. exists n, nword, i, j, c, c'.
      split_and!; [apply elem_of_cons; by left|done..].
    + intros H. destruct (IH H) as (n' & nword' & i' & j' & d & d' & Hin & ?).
      exists n', nword', i', j', d, d'. split; [|done].
      apply elem_of_cons. by right.
  - intros H. destruct (IH H) as (n' & nword' & i' & j' & d & d' & Hin & ?).
    exists n', nword', i', j', d, d'. split; [|done].
    apply elem_of_cons. by right.
Qed.

(** X9. [consistent] returns a value in two cases only: [None] on the empty
    assignment, and [False] when the first entry of the assignment has a
    word of the wrong length or a letter that differs from the letter of
    an assigned neighbor at their overlap.  In particular [False] is never
    the answer to a repeated word. *)
Theorem consistent_returns (cw : Crossword) (a : assignment) (r : option bool) :
  consistent cw a = Ret r →
  (a = [] ∧ r = None)
  ∨ (r = Some false
     ∧ ∃ var word rest,
         a = (var, Some word) :: rest
         ∧ (String.length word ≠ var_length var
            ∨ ∃ n nword i j c c',
                n ∈ neighbors cw var
                ∧ assignment_get a n = Some (Some nword)
                ∧ overlaps cw !! (var, n) = Some (Some (i, j))
                ∧ String.get i word = Some c
                ∧ String.get j nword = Some c' ∧ c ≠ c')).
Proof.
  unfold consistent. destruct a as [|[var val] rest]; cbn [consistent_loop].
  - intros [= <-]. by left.
  - destruct (decide (val ∈ [])) as [Hin|_]; [by apply elem_of_nil in Hin|].
    destruct val as [word|]; [|done]. case_decide as Hlen.
    + intros [= <-]. right. split; [done|]. exists var, word, rest. auto.
    + destruct (consistent_inner cw ((var, Some word) :: rest) var word
                  (neighbors cw var)) as [[|b]|e] eqn:E; [done| |done].
      intros [= <-]. pose proof (consistent_inner_return _ _ _ _ _ _ E) as ->.
      right. split; [done|]. exists var, word, rest. split; [done|]. right.
      by apply consistent_inner_conflict in E.
Qed.

Lemma consistent_returns_witness :
  ([(slot_A, Some "CATS")] = [] ∧ Some false = None)
  ∨ (Some false = Some false
     ∧ ∃ var word rest,
         [(slot_A, Some "CATS")] = (var, Some word) :: rest
         ∧ (String.length word ≠ var_length var
            ∨ ∃ n nword i j c c',
                n ∈ neighbors one_slot var
                ∧ assignment_get [(slot_A, Some "CATS")] n = Some (Some nword)
                ∧ overlaps one_slot !! (var, n) = Some (Some (i, j))
                ∧ String.get i word = Some c
                ∧ String.get j nword = Some c' ∧ c ≠ c')).
Proof.
  apply (consistent_returns one_slot [(slot_A, Some "CATS")] (Some false)).
  reflexivity.
Defined.

Lemma consistent_inner_unassigned cw a var word nbrs :
  Forall (fun n => assignment_get a n = None) nbrs →
  consistent_inner cw a var word nbrs = Ret Next.
Proof.
  induction 1 as [|n nbrs Hn _ IH]; simpl; [done|]. by rewrite Hn.
Qed.

(** X10. When the first entry of an assignment has a word of the right
    length and none of its neighbors is assigned, [consistent] raises
    [TypeError] without looking at the other entries: a repeated word or a
    word of the wrong length further on goes unnoticed. *)
Theorem consistent_stops_at_first_entry (cw : Crossword) (var : variable)
    (word : string) (rest : assignment) :
  String.length word = var_length var →
  Forall (fun n => assignment_get ((var, Some word) :: rest) n = None)
         (neighbors cw var) →
  consistent cw ((var, Some word) :: rest) = Raise TypeError.
Proof.
  intros Hlen Hn. unfold consistent. cbn [consistent_loop].
  destruct (decide (Some word ∈ [])) as [Hin|_]; [by apply elem_of_nil in Hin|].
  case_decide; [done|].
  by rewrite consistent_inner_unassigned.
Qed.

Lemma consistent_stops_at_first_entry_witness :
  consistent apart [(slot_A, Some "CAT"); (slot_L, Some "CAT")]
  = Raise TypeError.
Proof.
  apply (consistent_stops_at_first_entry apart slot_A "CAT"
           [(slot_L, Some "CAT")]); [reflexivity|constructor].
Defined.

(** *** letter_grid *)

Lemma blank_grid_dims h w : grid_dims h w (blank_grid h w).
Proof.
  split; [apply length_replicate|].
  apply Forall_replicate, length_replicate.
Qed.

Lemma blank_grid_cell h w r c :
  (r < h)%nat → (c < w)%nat → cell_at (blank_grid h w) r c = Some None.
Proof.
  intros Hr Hc. unfold cell_at, blank_grid.
  rewrite lookup_replicate_2 by done. by apply lookup_replicate_2.
Qed.

Lemma grid_set_ok h w g i j ch :
  grid_dims h w g → (i < h)%nat → (j < w)%nat →
  ∃ g', grid_set g i j ch = Ret g'.
Proof.
  intros [Hlen Hrows] Hi Hj. unfold grid_set.
  destruct (lookup_lt_is_Some_2 g i) as [row Hrow]; [lia|]. rewrite Hrow.
  rewrite Forall_lookup in Hrows. rewrite (Hrows _ _ Hrow).
  rewrite decide_True by done. by eexists.
Qed.

Lemma grid_set_inv h w g i j ch g' :
  grid_dims h w g → grid_set g i j ch = Ret g' →
  (i < h)%nat ∧ (j < w)%nat ∧ grid_dims h w g'
  ∧ ∀ r c, cell_at g' r c
           = if decide (r = i ∧ c = j) then Some (Some ch) else cell_at g r c.
Proof.
  intros [Hlen Hrows] H. unfold grid_set in H.
  destruct (g !! i) as [row|] eqn:Hrow; [|done].
  pose proof (lookup_lt_Some _ _ _ Hrow) as Hi.
  assert (List.length row = w) as Hw
    by (rewrite Forall_lookup in Hrows; by eapply Hrows).
  case_decide as Hj; [|done]. simplify_eq. split_and!; [lia|lia| |].
  - split; [by rewrite length_insert|].
    apply Forall_insert; [done|]. by rewrite length_insert.
  - intros r c. unfold cell_at. destruct (decide (r = i)) as [->|Hr].
    + rewrite list_lookup_insert_eq by done.
      destruct (decide (c = j)) as [->|Hc].
      * rewrite decide_True by done. by rewrite list_lookup_insert_eq.
      * rewrite decide_False by (by intros [_ ?]).
        rewrite list_lookup_insert_ne by done. by rewrite Hrow.
    + rewrite decide_False by (by intros [? _]).
      by rewrite list_lookup_insert_ne.
Qed.

(** Two letters of a word never share a cell. *)
Lemma cell_inj var k k' :
  cell_row var k = cell_row var k' → cell_col var k = cell_col var k' → k = k'.
Proof.
  unfold cell_row, cell_col. destruct (var_direction var); simpl; lia.
Qed.

Lemma place_ok h w var word : ∀ ks g,
  grid_dims h w g →
  Forall (fun k => is_Some (String.get k word)
                   ∧ (cell_row var k < h)%nat ∧ (cell_col var k < w)%nat) ks →
  ∃ g', place var word ks g = Ret g'.
Proof.
  induction ks as [|k ks IH]; intros g Hg Hall; simpl; [by eexists|].
  apply Forall_cons_1 in Hall as [([ch Hch] & Hr & Hc) Hall]. rewrite Hch.
  destruct (grid_set_ok h w g _ _ ch Hg Hr Hc) as [g1 Hg1]. rewrite Hg1.
  apply IH; [|done]. by destruct (grid_set_inv _ _ _ _ _ _ _ Hg Hg1) as (_ & _ & ? & _).
Qed.

Lemma place_inv h w var word : ∀ ks g g',
  grid_dims h w g → NoDup ks → place var word ks g = Ret g' →
  grid_dims h w g'
  ∧ Forall (fun k => (cell_row var k < h)%nat ∧ (cell_col var k < w)%nat) ks
  ∧ (∀ r c, (∀ k, k ∈ ks → ¬ (cell_row var k = r ∧ cell_col var k = c)) →
            cell_at g' r c = cell_at g r c)
  ∧ (∀ k, k ∈ ks →
       ∃ ch, String.get k word = Some ch
             ∧ cell_at g' (cell_row var k) (cell_col var k) = Some (Some ch)).
Proof.
  induction ks as [|k ks IH]; intros g g' Hg Hnd H; simpl in H.
  - simplify_eq. split_and!; [done..|]. intros k Hk. by apply elem_of_nil in Hk.
  - destruct (String.get k word) as [ch|] eqn:Hch; [|done].
    destruct (grid_set g (cell_row var k) (cell_col var k) ch) as [g1|e] eqn:Hg1;
      [|done].
    destruct (grid_set_inv _ _ _ _ _ _ _ Hg Hg1) as (Hr & Hc & Hg1d & Hcell).
    apply NoDup_cons in Hnd as [Hk Hnd].
    destruct (IH _ _ Hg1d Hnd H) as (Hg' & Hall & Hkeep & Hput).
    split_and!; [done|by constructor| |].
    + intros r c Hfree. rewrite Hkeep.
      * rewrite Hcell. rewrite decide_False; [done|]. intros [-> ->].
        apply (Hfree k); [apply elem_of_cons; by left|done].
      * intros k' Hk'. apply Hfree, elem_of_cons. by right.
    + intros k' [->|Hk']%elem_of_cons; [|by apply Hput].
      exists ch. split; [done|]. rewrite Hkeep.
      * rewrite Hcell. by rewrite decide_True.
      * intros k' Hk' [Hrow Hcol]. apply Hk.
        by rewrite <- (cell_inj _ _ _ Hrow Hcol).
Qed.

Lemma get_Some_lt (s : string) : ∀ n ch,
  String.get n s = Some ch → (n < String.length s)%nat.
Proof.
  induction s as [|c s IH]; intros n ch H; simpl in *; [done|].
  destruct n as [|n]; [lia|]. apply IH in H. lia.
Qed.

Lemma letter_grid_loop_app : ∀ a1 a2 g,
  letter_grid_loop (a1 ++ a2) g
  = match letter_grid_loop a1 g with
    | Ret g1 => letter_grid_loop a2 g1
    | Raise e => Raise e
    end.
Proof.
  induction a1 as [|[var [word|]] a1 IH]; intros a2 g; simpl; [done| |done].
  destruct (place var word (seq 0 (String.length word)) g); [apply IH|done].
Qed.

Lemma letter_grid_loop_inv h w : ∀ items g g',
  grid_dims h w g → letter_grid_loop items g = Ret g' →
  grid_dims h w g'
  ∧ Forall (fun p => ∃ word, p.2 = Some word ∧ fits h w p.1 word) items
  ∧ (∀ r c,
       (∀ var word, (var, Some word) ∈ items →
                    ¬ covers var (String.length word) r c) →
       cell_at g' r c = cell_at g r c).
Proof.
  induction items as [|[var [word|]] items IH]; intros g g' Hg H; simpl in H;
    [by simplify_eq| |done].
  destruct (place var word (seq 0 (String.length word)) g) as [g1|e] eqn:Hp;
    [|done].
  destruct (place_inv h w _ _ _ _ _ Hg (NoDup_seq _ _) Hp)
    as (Hg1 & Hfit & Hkeep & _).
  destruct (IH _ _ Hg1 H) as (Hg' & Hall & Hrest). split_and!; [done| |].
  - constructor; [|done]. exists word. split; [done|]. intros k Hk.
    rewrite Forall_forall in Hfit. apply Hfit, elem_of_seq. lia.
  - intros r c Hfree. rewrite Hrest.
    + apply Hkeep. intros k Hk%elem_of_seq [Hr Hc].
      apply (Hfree var word); [apply elem_of_cons; by left|].
      exists k. split_and!; [lia|done..].
    + intros var' word' Hin. apply Hfree, elem_of_cons. by right.
Qed.

Lemma letter_grid_loop_ok h w : ∀ items g,
  grid_dims h w g →
  Forall (fun p => ∃ word, p.2 = Some word ∧ fits h w p.1 word) items →
  ∃ g', letter_grid_loop items g = Ret g'.
Proof.
  induction items as [|[var val] items IH]; intros g Hg Hall; simpl;
    [by eexists|].
  apply Forall_cons_1 in Hall as [(word & Hval & Hfit) Hall].
  simpl in Hval, Hfit. subst val.
  destruct (place_ok h w var word (seq 0 (String.length word)) g Hg)
    as [g1 Hg1].
  { apply Forall_forall. intros k Hk%elem_of_seq.
    split; [apply get_is_Some; lia|]. apply Hfit. lia. }
  rewrite Hg1. apply IH; [|done].
  by destruct (place_inv h w _ _ _ _ _ Hg (NoDup_seq _ _) Hg1) as (? & _).
Qed.

(** X11. [letter_grid] returns a grid exactly when every entry of the
    assignment has a word and every word lies inside the grid; a word that
    sticks out of the grid, or a value of [None], ends in an exception. *)
Theorem letter_grid_returns_iff (ly : Layout) (a : assignment) :
  (∃ g, letter_grid ly a = Ret g)
  ↔ Forall (fun p => ∃ word, p.2 = Some word
                             ∧ fits (height ly) (width ly) p.1 word) a.
Proof.
  unfold letter_grid. split.
  - intros [g Hg].
    by destruct (letter_grid_loop_inv _ _ _ _ _ (blank_grid_dims _ _) Hg)
      as (_ & ? & _).
  - apply letter_grid_loop_ok, blank_grid_dims.
Qed.

(** X12. A grid that [letter_grid] returns has [height] rows of [width]
    cells, and every cell that no assigned slot covers is [None]. *)
Theorem letter_grid_shape (ly : Layout) (a : assignment) (g : grid) :
  letter_grid ly a = Ret g →
  grid_dims (height ly) (width ly) g
  ∧ ∀ r c, (r < height ly)%nat → (c < width ly)%nat →
      (∀ var word, (var, Some word) ∈ a →
                   ¬ covers var (String.length word) r c) →
      cell_at g r c = Some None.
Proof.
  unfold letter_grid. intros H.
  destruct (letter_grid_loop_inv _ _ _ _ _ (blank_grid_dims _ _) H)
    as (Hg & _ & Hkeep).
  split; [done|]. intros r c Hr Hc Hfree.
  rewrite Hkeep by done. by apply blank_grid_cell.
Qed.

(** X13. In a grid that [letter_grid] returns, letter [k] of the word of a
    slot is in the cell [k] steps along the slot (down for DOWN, to the
    right for ACROSS), unless a later entry of the assignment covers that
    cell. *)
Theorem letter_grid_letter (ly : Layout) (a1 a2 : assignment)
    (var : variable) (word : string) (k : nat) (ch : ascii) (g : grid) :
  letter_grid ly (a1 ++ (var, Some word) :: a2) = Ret g →
  String.get k word = Some ch →
  (∀ var' word', (var', Some word') ∈ a2 →
     ¬ covers var' (String.length word') (cell_row var k) (cell_col var k)) →
  cell_at g (cell_row var k) (cell_col var k) = Some (Some ch).
Proof.
  unfold letter_grid. intros H Hch Hfree.
  rewrite letter_grid_loop_app in H.
  destruct (letter_grid_loop a1 (blank_grid (height ly) (width ly)))
    as [g1|e] eqn:H1; [|done].
  destruct (letter_grid_loop_inv _ _ _ _ _ (blank_grid_dims _ _) H1)
    as (Hg1 & _ & _).
  simpl in H.
  destruct (place var word (seq 0 (String.length word)) g1) as [g2|e] eqn:Hp;
    [|done].
  destruct (place_inv _ _ _ _ _ _ _ Hg1 (NoDup_seq _ _) Hp)
    as (Hg2 & _ & _ & Hput).
  destruct (letter_grid_loop_inv _ _ _ _ _ Hg2 H) as (_ & _ & Hkeep).
  rewrite Hkeep by done.
  destruct (Hput k) as (ch' & Hch' & ->); [|congruence].
  apply elem_of_seq. apply get_Some_lt in Hch. lia.
Qed.

Lemma letter_grid_shape_witness :
  grid_dims 3 3 [[Some "C"; Some "A"; Some "T"];
                 [None; Some "C"; None];
                 [None; Some "T"; None]]%char
  ∧ ∀ r c, (r < 3)%nat → (c < 3)%nat →
      (∀ var word,
         (var, Some word) ∈ [(slot_A, Some "CAT"); (slot_B, Some "ACT")] →
         ¬ covers var (String.length word) r c) →
      cell_at [[Some "C"; Some "A"; Some "T"];
               [None; Some "C"; None];
               [None; Some "T"; None]]%char r c = Some None.
Proof.
  apply (letter_grid_shape cross_layout
           [(slot_A, Some "CAT"); (slot_B, Some "ACT")]).
  vm_compute. reflexivity.
Defined.

Lemma letter_grid_letter_witness :
  cell_at [[Some "C"; Some "A"; Some "T"];
           [None; Some "C"; None];
           [None; Some "T"; None]]%char 0 0 = Some (Some "C"%char).
Proof.
  apply (letter_grid_letter cross_layout [] [(slot_B, Some "ACT")]
           slot_A "CAT" 0 "C"%char); [vm_compute; reflexivity|reflexivity|].
  intros var' word' Hin (k & _ & _ & Hcol).
  apply elem_of_cons in Hin as [[= -> ->]|Hin]; [|by apply elem_of_nil in Hin].
  vm_compute in Hcol. lia.
Defined.

(** *** print *)

Lemma print_cell_length ly g i j (srow : list bool) (b : bool) :
  grid_dims (height ly) (width ly) g →
  (i < height ly)%nat → (j < width ly)%nat →
  structure ly !! i = Some srow → srow !! j = Some b →
  ∃ s, print_cell ly g i j = Ret s
       ∧ List.length s = if b then 1%nat else 3%nat.
Proof.
  intros [Hlen Hrows] Hi Hj Hsrow Hb. unfold print_cell. rewrite Hsrow, Hb.
  destruct b; [|by eexists].
  destruct (lookup_lt_is_Some_2 g i) as [lrow Hlrow]; [lia|]. rewrite Hlrow.
  rewrite Forall_lookup in Hrows. pose proof (Hrows _ _ Hlrow) as Hw.
  destruct (lookup_lt_is_Some_2 lrow j) as [[c|] Hc]; [lia|..]; rewrite Hc;
    by eexists.
Qed.

Lemma print_row_length ly g i (srow : list bool) :
  grid_dims (height ly) (width ly) g → (i < height ly)%nat →
  structure ly !! i = Some srow → List.length srow = width ly →
  ∀ n s out, (s + n = width ly)%nat →
    ∃ text, print_row ly g i (seq s n) out = (Ret tt, (out ++ text)%list)
            ∧ List.length text
              = (n + 2 * List.length (filter (fun b => b = false) (drop s srow))
                 + 1)%nat.
Proof.
  intros Hg Hi Hsrow Hw. induction n as [|n IH]; intros s out Hs; simpl.
  - exists [newline_char]. split; [done|].
    rewrite drop_ge by lia. done.
  - destruct (lookup_lt_is_Some_2 srow s) as [b Hb]; [lia|].
    destruct (print_cell_length ly g i s srow b Hg Hi ltac:(lia) Hsrow Hb)
      as (str & -> & Hstr).
    destruct (IH (S s) (out ++ str)%list ltac:(lia)) as (text & -> & Htext).
    exists (str ++ text)%list. split; [by rewrite app_assoc|].
    rewrite length_app, Htext, Hstr. rewrite (drop_S _ _ _ Hb).
    rewrite filter_cons. destruct b.
    + rewrite decide_False by done. lia.
    + rewrite decide_True by done. simpl. lia.
Qed.

Lemma print_rows_length ly g :
  grid_dims (height ly) (width ly) g → structure_dims ly →
  ∀ n s out, (s + n = height ly)%nat →
    ∃ text, print_rows ly g (seq s n) out = (Ret tt, (out ++ text)%list)
            ∧ List.length text
              = (n * (width ly + 1)
                 + 2 * List.length
                         (filter (fun b => b = false)
                                 (List.concat (drop s (structure ly)))))%nat.
Proof.
  intros Hg [Hlen Hrows]. induction n as [|n IH]; intros s out Hs; simpl.
  - exists []. split; [by rewrite app_nil_r|]. by rewrite drop_ge by lia.
  - destruct (lookup_lt_is_Some_2 (structure ly) s) as [srow Hsrow]; [lia|].
    assert (List.length srow = width ly) as Hw
      by (rewrite Forall_lookup in Hrows; by eapply Hrows).
    destruct (print_row_length ly g s srow Hg ltac:(lia) Hsrow Hw
                (width ly) 0%nat out eq_refl) as (line & -> & Hline).
    destruct (IH (S s) (out ++ line)%list ltac:(lia)) as (text & -> & Htext).
    exists (line ++ text)%list. split; [by rewrite app_assoc|].
    rewrite length_app, Htext, Hline. rewrite (drop_S _ _ _ Hsrow).
    rewrite drop_0. simpl. rewrite filter_app, length_app. lia.
Qed.

(** X14. When the structure has one entry per cell and [letter_grid]
    succeeds, [print] returns after appending [height] lines to the
    output: [width] cells and a newline per line, where a cell that can be
    filled takes one character and a blocked cell takes the three
    characters of the literal in the source. *)
Theorem print_output_length (ly : Layout) (a : assignment) (g : grid)
    (out : stdout) :
  structure_dims ly → letter_grid ly a = Ret g →
  ∃ text, print ly a out = (Ret tt, (out ++ text)%list)
          ∧ List.length text
            = (height ly * (width ly + 1) + 2 * blocked_cells ly)%nat.
Proof.
  intros Hs Hg. unfold print. rewrite Hg. unfold letter_grid in Hg.
  destruct (letter_grid_loop_inv _ _ _ _ _ (blank_grid_dims _ _) Hg)
    as (Hdims & _).
  destruct (print_rows_length ly g Hdims Hs (height ly) 0%nat out eq_refl)
    as (text & -> & Htext).
  exists text. split; [done|]. by rewrite Htext, drop_0.
Qed.

Lemma print_output_length_witness :
  ∃ text,
    print cross_layout [(slot_A, Some "CAT"); (slot_B, Some "ACT")] []
    = (Ret tt, ([] ++ text)%list)
    ∧ List.length text
      = (height cross_layout * (width cross_layout + 1)
         + 2 * blocked_cells cross_layout)%nat.
Proof.
  apply (print_output_length cross_layout
           [(slot_A, Some "CAT"); (slot_B, Some "ACT")]
           [[Some "C"; Some "A"; Some "T"];
            [None; Some "C"; None];
            [None; Some "T"; None]]%char []).
  - split; [reflexivity|repeat constructor].
  - vm_compute. reflexivity.
Defined.

(** *** assignment_complete, once more *)

(** X15. [assignment_complete] returns [False] exactly when some key of the
    assignment is mapped to [None]; the variables of the crossword play no
    part. *)
Theorem assignment_complete_false_iff (cw : Crossword) (a : assignment) :
  assignment_complete cw a = false ↔ ∃ var, (var, None) ∈ a.
Proof.
  unfold assignment_complete.
  induction a as [|[var [word|]] a IH]; simpl.
  - split; [done|]. intros [var Hin]. by apply elem_of_nil in Hin.
  - rewrite IH. split; intros [v Hv]; exists v.
    + apply elem_of_cons. by right.
    + by apply elem_of_cons in Hv as [[=]|?].
  - split; [|done]. intros _. exists var. apply elem_of_cons. by left.
Qed.

(** *** How the passes compose *)

(** X16. On the domains that [__init__] creates, [enforce_node_consistency]
    returns exactly when every word of the vocabulary has the length of
    every variable; the domains are then still the whole vocabulary. *)
Theorem enforce_node_consistency_after_init (cw : Crossword) :
  enforce_node_consistency cw (init_domains cw) = (Ret tt, init_domains cw)
  ↔ ∀ var w, var ∈ variables cw → w ∈ words cw →
             String.length w = var_length var.
Proof.
  rewrite node_consistent_returns. unfold node_consistent. split.
  - intros H var w Hvar Hw. destruct (H var Hvar) as (d & Hd & Hall).
    rewrite init_domains_get, decide_True in Hd by done. simplify_eq.
    rewrite Forall_forall in Hall. by apply Hall.
  - intros H var Hvar. exists (words cw). split.
    + by rewrite init_domains_get, decide_True.
    + apply Forall_forall. intros w Hw. by apply H.
Qed.

Lemma ac3_while_raises cw fuel : ∀ arcs st e arcs' st',
  ac3_while cw fuel arcs st = Some (Raise e, arcs', st') →
  e = KeyError ∨ e = IndexError ∨ e = RuntimeError.
Proof.
  induction fuel as [|fuel IH]; intros [|[x y] arcs] st e arcs' st' H;
    simpl in H; simplify_eq.
  destruct (revise_cases cw x y st)
    as [Er|[Er|[Er|(i & j & dx & dy & w & _ & _ & _ & _ & _ & Er)]]];
    rewrite Er in H; simplify_eq; eauto.
Qed.

(** X17. Given one iteration per arc, [solve] gets as far as [backtrack]
    (and ends with its [NotImplementedError]) exactly when the store is
    node consistent and [revise] has nothing to remove on any arc; the
    store is then untouched. *)
Theorem solve_reaches_backtrack (cw : Crossword) (fuel : nat)
    (st st' : domains) :
  (List.length (initial_arcs cw) ≤ fuel)%nat →
  solve cw fuel st = Some (Raise NotImplementedError, st')
  ↔ st' = st ∧ node_consistent cw st
    ∧ Forall (fun a => revise cw a.1 a.2 st = (Ret false, st))
             (initial_arcs cw).
Proof.
  intros Hfuel. unfold solve. split.
  - destruct (enforce_node_consistency cw st) as [[[]|e] st1] eqn:E1.
    + destruct (enforce_node_consistency_returns _ _ _ _ E1) as [-> _].
      apply node_consistent_returns in E1.
      destruct (ac3 cw fuel None st) as [[[[b|e] arcs'] st2]|] eqn:E2; [| |done].
      * unfold backtrack, raise. intros [= <-].
        apply ac3_while_returns in E2 as Hret.
        destruct Hret as (-> & -> & -> & _).
        split_and!; [done..|]. by apply (ac3_true_when cw fuel None).
      * intros [= -> <-]. apply ac3_while_raises in E2.
        by destruct E2 as [?|[?|?]].
    + intros [= -> <-]. unfold enforce_node_consistency in E1.
      destruct (node_loop_outcomes st (variables cw))
        as [[_ H]|[(v & _ & _ & H)|(v & d & w & _ & _ & _ & _ & H)]];
        rewrite H in E1; by simplify_eq.
  - intros (-> & Hnc & Hall).
    apply node_consistent_returns in Hnc. rewrite Hnc.
    apply (ac3_true_when cw fuel None) in Hall; [|done]. by rewrite Hall.
Qed.

Lemma solve_reaches_backtrack_witness :
  solve one_slot 0 (init_domains one_slot)
  = Some (Raise NotImplementedError, init_domains one_slot)
  ↔ init_domains one_slot = init_domains one_slot
    ∧ node_consistent one_slot (init_domains one_slot)
    ∧ Forall (fun a => revise one_slot a.1 a.2 (init_domains one_slot)
                       = (Ret false, init_domains one_slot))
             (initial_arcs one_slot).
Proof.
  apply (solve_reaches_backtrack one_slot 0). vm_compute. lia.
Defined.
